(** * A shallow embedding of the GC heap (src/GC/heap.cpp and src/GC/lib/heap.cpp)

    The repository holds two versions of the [GC::Heap] class:
    - [src/GC/lib/heap.cpp] (module [Lib] below): [Chunk::start] is a
      [uintptr_t *], [collect] is mark, sweep, release;
    - [src/GC/heap.cpp] (module [Old] below): [Chunk::start] is a byte
      pointer, [collect] is mark, compact, release.

    Conventions of the embedding:
    - [size_t] values are integers in [0, 2^64); every [size_t] operation is
      written with its wrap-around ([wrap]);
    - addresses are integers; pointer arithmetic [p + n] on a [T *] is
      [p + sizeof(T) * n] and is not wrapped (overflowing it is undefined
      behaviour in C++);
    - [Chunk *] values are keys into a store of descriptors ([objs]), so that
      the vectors [m_allocated_chunks], [m_freed_chunks] and the local
      [work_list] alias the same descriptors, as in the source;
    - a failed [assert] aborts the call ([Aborted]);
    - the bytes of the arena are not part of the state: [memmove] in
      [compact] changes only them. *)

From Stdlib Require Import ZArith List Lia Bool Sorting.Sorted Sorting.Permutation.
From stdpp Require Import base option list gmap.

Local Open Scope Z_scope.

(** ** Constants of include/heap.hpp *)

Definition HEAP_SIZE : Z := 240240240.

(** [size_t] is 64 bits wide. *)
Definition wrap (z : Z) : Z := z mod 2 ^ 64.

(** [sizeof(uintptr_t)]: the step of [start++] on a [uintptr_t *]. *)
Definition WORD : Z := 8.

(** ** Data model *)

(** Modelled from the spec: chunk.hpp is missing from the sources; the
    descriptor is the record [{ start: address, size: bytes, marked: bool }]
    of the spec's data model, with the field names the code uses
    ([chunk->start], [chunk->size], [chunk->marked]). *)
Record Chunk : Type := mkChunk {
  marked : bool;
  start : Z;
  size : Z
}.

(** The members of [class Heap] the two source files use, the store of
    descriptors reached through [Chunk *] ([objs], with [next_obj] the next
    pointer [new Chunk] returns), and a ghost counter of the calls of
    [collect()] ([collect_calls], not a member of the class). *)
Record Heap : Type := mkHeap {
  m_heap : Z;
  m_size : Z;
  m_stack_top : Z;
  m_allocated_chunks : list nat;
  m_freed_chunks : list nat;
  objs : gmap nat Chunk;
  next_obj : nat;
  collect_calls : nat
}.

(** The two assertions of [alloc]:
    ["Heap: Cannot alloc less than 0B"] and ["Heap: Out Of Memory"]. *)
Inductive Failure : Type := InvalidRequest | OutOfMemory.

Inductive Outcome : Type :=
| Returned (addr : Z) (h : Heap)
| Aborted (f : Failure) (h : Heap).

(** Reading through a [Chunk *]; a dangling pointer reads a null descriptor. *)
Definition deref (o : gmap nat Chunk) (p : nat) : Chunk :=
  default (mkChunk false 0 0) (o !! p).

Definition set_marked (p : nat) (o : gmap nat Chunk) : gmap nat Chunk :=
  alter (fun c => mkChunk true (start c) (size c)) p o.

Definition set_start (p : nat) (a : Z) (o : gmap nat Chunk) : gmap nat Chunk :=
  alter (fun c => mkChunk (marked c) a (size c)) p o.

(** Modelled from the spec: [new Chunk] leaves [marked] to chunk.hpp, which
    is missing; the spec's fresh descriptors carry [marked = false]. *)
Definition new_chunk (a sz : Z) : Chunk := mkChunk false a sz.

Definition with_lists (h : Heap) (al fr : list nat) : Heap :=
  mkHeap (m_heap h) (m_size h) (m_stack_top h) al fr (objs h) (next_obj h)
         (collect_calls h).

Definition with_objs (h : Heap) (o : gmap nat Chunk) : Heap :=
  mkHeap (m_heap h) (m_size h) (m_stack_top h) (m_allocated_chunks h)
         (m_freed_chunks h) o (next_obj h) (collect_calls h).

(** [new Chunk] followed by the two field assignments. *)
Definition alloc_obj (h : Heap) (c : Chunk) : nat * Heap :=
  (next_obj h,
   mkHeap (m_heap h) (m_size h) (m_stack_top h) (m_allocated_chunks h)
          (m_freed_chunks h) (<[next_obj h := c]> (objs h)) (S (next_obj h))
          (collect_calls h)).

Definition count_collect (h : Heap) : Heap :=
  mkHeap (m_heap h) (m_size h) (m_stack_top h) (m_allocated_chunks h)
         (m_freed_chunks h) (objs h) (next_obj h) (S (collect_calls h)).

(** ** The code shared by the two versions

    [stride] is [sizeof] of the type [Chunk::start] points to: 8 in
    lib/heap.cpp ([m_heap] cast to a [uintptr_t] pointer, plus [m_size]),
    1 in heap.cpp ([m_heap] cast to a [void] pointer, plus [m_size]). *)
Section Core.

Variable stride : Z.

(** [p + n] for [p] of the type of [Chunk::start]. *)
Definition ptr_add (p n : Z) : Z := p + stride * n.

(** *** alloc: the loop over [m_freed_chunks]

    [rest] is the part of [m_freed_chunks] from index [i] on. *)
Fixpoint reuse_loop (sz : Z) (h : Heap) (rest : list nat) (i : nat)
  : option (Z * Heap) :=
  match rest with
  | [] => None
  | cp :: rest' =>
      let c := deref (objs h) cp in
      if sz <? size c then
        let diff := wrap (size c - sz) in
        let '(chunk_complement, h1) :=
          alloc_obj h (new_chunk (ptr_add (start c) (size c)) diff) in
        Some (start c,
              with_lists h1 (m_allocated_chunks h1 ++ [cp])
                         (delete i (m_freed_chunks h1) ++ [chunk_complement]))
      else if size c =? sz then
        Some (start c,
              with_lists h (m_allocated_chunks h ++ [cp])
                         (delete i (m_freed_chunks h)))
      else reuse_loop sz h rest' (S i)
  end.

(** *** alloc: the fresh chunk at the bump offset *)
Definition bump_alloc (sz : Z) (h : Heap) : Z * Heap :=
  let c := new_chunk (ptr_add (m_heap h) (m_size h)) sz in
  let '(p, h1) := alloc_obj h c in
  (start c,
   mkHeap (m_heap h1) (wrap (m_size h1 + sz)) (m_stack_top h1)
          (m_allocated_chunks h1 ++ [p]) (m_freed_chunks h1) (objs h1)
          (next_obj h1) (collect_calls h1)).

(** The part of [alloc] after the capacity check. *)
Definition alloc_tail (sz : Z) (h : Heap) : Z * Heap :=
  match reuse_loop sz h (m_freed_chunks h) 0 with
  | Some r => r
  | None => bump_alloc sz h
  end.

(** [Heap::alloc], over the [collect()] of the version at hand. The local
    [heap] names the singleton [Heap::the()]: [heap.m_size] and the members
    [alloc] uses directly are read from the same object [h]. *)
Definition alloc_with (collect : Heap -> Heap) (sz : Z) (h : Heap) : Outcome :=
  if negb (0 <? sz) then Aborted InvalidRequest h
  else if HEAP_SIZE <? wrap (m_size h + sz) then
    let h1 := collect h in
    if wrap (m_size h1 + sz) <=? HEAP_SIZE then
      let '(a, h2) := alloc_tail sz h1 in Returned a h2
    else Aborted OutOfMemory h1
  else let '(a, h2) := alloc_tail sz h in Returned a h2.

(** *** mark

    The test of the inner loop on one descriptor: the ADDRESS [a] of the
    stack slot (the code compares [start], not [*start]) lies in the
    extent of the chunk and the chunk is not marked yet. *)
Definition hit (o : gmap nat Chunk) (a : Z) (p : nat) : bool :=
  let chunk := deref o p in
  (start chunk <=? a) && (a <? ptr_add (start chunk) (size chunk))
  && negb (marked chunk).

(** The inner loop: the first index of [work_list], from [i] on, that hits. *)
Fixpoint find_hit (o : gmap nat Chunk) (a : Z) (rest : list nat) (i : nat)
  : option (nat * nat) :=
  match rest with
  | [] => None
  | p :: rest' => if hit o a p then Some (i, p) else find_hit o a rest' (S i)
  end.

(** The outer loop [for (; start < end; start++)]; [n] bounds the number of
    slots left, [k] is the recursive call of [mark]. *)
Fixpoint mark_scan (k : Z -> list nat -> gmap nat Chunk -> gmap nat Chunk)
  (n : nat) (a e : Z) (work_list : list nat) (o : gmap nat Chunk)
  : gmap nat Chunk :=
  match n with
  | O => o
  | S n' =>
      if a <? e then
        match find_hit o a work_list 0 with
        | Some (i, p) =>
            let chunk := deref o p in
            k (ptr_add (start chunk) (size chunk)) (delete i work_list)
              (set_marked p o)
        | None => mark_scan k n' (a + WORD) e work_list o
        end
      else o
  end.

(** The number of slots of the range [a, e) visited by [start++]. *)
Definition slots (a e : Z) : nat := Z.to_nat ((e - a + (WORD - 1)) / WORD).

(** [d] bounds the depth of the recursion; every recursive call has erased
    one element of [work_list]. *)
Fixpoint mark_rec (d : nat) (a e : Z) (work_list : list nat)
  (o : gmap nat Chunk) : gmap nat Chunk :=
  match d with
  | O => o
  | S d' =>
      mark_scan (fun a' wl' o' => mark_rec d' a' e wl' o')
                (slots a e) a e work_list o
  end.

Definition mark (a e : Z) (work_list : list nat) (o : gmap nat Chunk)
  : gmap nat Chunk :=
  mark_rec (S (length work_list)) a e work_list o.

(** *** The loop that releases the freed descriptors

    [rfreed] is [m_freed_chunks] read from the back ([back], [pop_back]). *)
Fixpoint release_loop (rfreed : list nat) (o : gmap nat Chunk)
  : gmap nat Chunk :=
  match rfreed with
  | [] => o
  | chunk_pointer :: r => release_loop r (delete chunk_pointer o)
  end.

Definition release (h : Heap) : Heap :=
  with_lists (with_objs h (release_loop (rev (m_freed_chunks h)) (objs h)))
             (m_allocated_chunks h) [].

End Core.

(** ** src/GC/lib/heap.cpp *)
Module Lib.

(** [Chunk::start] is a [uintptr_t *]. *)
Definition stride : Z := 8.

(** [Heap::sweep]: [kept] is the part of [m_allocated_chunks] before the
    iterator [it], [rest] the part from [it] on. *)
Fixpoint sweep_loop (o : gmap nat Chunk) (kept rest freed : list nat)
  : list nat * list nat :=
  match rest with
  | [] => (kept, freed)
  | chunk :: rest' =>
      if negb (marked (deref o chunk))
      then sweep_loop o kept rest' (freed ++ [chunk])
      else sweep_loop o (kept ++ [chunk]) rest' freed
  end.

Definition sweep (h : Heap) : Heap :=
  let '(al, fr) :=
    sweep_loop (objs h) [] (m_allocated_chunks h) (m_freed_chunks h) in
  with_lists h al fr.

(** The bounds [collect()] hands to [mark]: [frame] is the value of
    [__builtin_frame_address(0)], the end is the null pointer. *)
Definition stack_bounds (frame : Z) (h : Heap) : Z * Z := (frame, 0).

Definition collect (frame : Z) (h : Heap) : Heap :=
  let h0 := count_collect h in
  let '(stack_start, stack_end) := stack_bounds frame h0 in
  let work_list := m_allocated_chunks h0 in
  let h1 := with_objs h0 (mark stride stack_start stack_end work_list (objs h0)) in
  release (sweep h1).

Definition alloc (frame : Z) (sz : Z) (h : Heap) : Outcome :=
  alloc_with stride (collect frame) sz h.

(** [enum CollectOption] of include/heap.hpp. *)
Definition MARK : Z := 1.
Definition SWEEP : Z := 2.
Definition MARK_SWEEP : Z := 4.
Definition FREE : Z := 8.
Definition COLLECT_ALL : Z := 15.

(** [flags & opt] read as a condition. *)
Definition flag_set (flags opt : Z) : bool := negb (Z.land flags opt =? 0).

(** The debug overload [Heap::collect(uint flags)]; the text it writes to
    [cout] is not part of the state. *)
Definition collect_flags (frame : Z) (flags : Z) (h : Heap) : Heap :=
  let '(stack_start, stack_end) := stack_bounds frame h in
  let work_list := m_allocated_chunks h in
  let h1 :=
    if flag_set flags MARK
    then with_objs h (mark stride stack_start stack_end work_list (objs h))
    else h in
  let h2 := if flag_set flags SWEEP then sweep h1 else h1 in
  if flag_set flags FREE then release h2 else h2.

End Lib.

(** ** src/GC/heap.cpp *)
Module Old.

(** [Chunk::start] is a byte pointer. *)
Definition stride : Z := 1.

Definition compareChunks (o : gmap nat Chunk) (c1 c2 : nat) : bool :=
  start (deref o c1) <? start (deref o c2).

(** [std::sort] with [compareChunks], as an insertion sort; the order
    [std::sort] gives to descriptors of equal [start] is unspecified. *)
Fixpoint insert_chunk (o : gmap nat Chunk) (c : nat) (l : list nat) : list nat :=
  match l with
  | [] => [c]
  | c' :: l' =>
      if compareChunks o c' c then c' :: insert_chunk o c l' else c :: c' :: l'
  end.

Fixpoint sort_chunks (o : gmap nat Chunk) (l : list nat) : list nat :=
  match l with
  | [] => []
  | c :: l' => insert_chunk o c (sort_chunks o l')
  end.

(** The loop of [compact] over the sorted vector. *)
Fixpoint compact_loop (l : list nat) (heap_curr : Z) (o : gmap nat Chunk)
  : gmap nat Chunk :=
  match l with
  | [] => o
  | space :: l' =>
      let c := deref o space in
      if negb (start c =? heap_curr)
      then compact_loop l' (heap_curr + size c) (set_start space heap_curr o)
      else compact_loop l' (heap_curr + size c) o
  end.

Definition compact (h : Heap) : Heap :=
  let sorted := sort_chunks (objs h) (m_allocated_chunks h) in
  let h1 := with_lists h sorted (m_freed_chunks h) in
  with_objs h1 (compact_loop sorted (m_heap h1) (objs h1)).

(** The bounds [collect()] hands to [mark]: [frame] and [frame10] are the
    values of [__builtin_frame_address(0)] and [__builtin_frame_address(10)]. *)
Definition stack_bounds (frame frame10 : Z) (h : Heap) : Z * Z :=
  (frame, frame10).

Definition collect (frame frame10 : Z) (h : Heap) : Heap :=
  let h0 := count_collect h in
  let '(stack_start, stack_end) := stack_bounds frame frame10 h0 in
  let work_list := m_allocated_chunks h0 in
  let h1 := with_objs h0 (mark stride stack_start stack_end work_list (objs h0)) in
  release (compact h1).

Definition alloc (frame frame10 : Z) (sz : Z) (h : Heap) : Outcome :=
  alloc_with stride (collect frame frame10) sz h.

End Old.

(** The heap as the member initialisers of include/heap.hpp leave it
    ([m_size{0}], empty vectors); [base] is the address [malloc] returned
    and [top] the frame address [init] is documented to record. *)
Definition fresh_heap (base top : Z) : Heap :=
  mkHeap base 0 top [] [] ∅ 0 0.

(** The two versions behind one interface; [Frames] carries the values the
    intrinsic [__builtin_frame_address] returns inside [collect()]. *)
Inductive Version : Type := VLib | VOld.

Record Frames : Type := mkFrames { frame0 : Z; frame10 : Z }.

Definition collect_of (v : Version) (f : Frames) (h : Heap) : Heap :=
  match v with
  | VLib => Lib.collect (frame0 f) h
  | VOld => Old.collect (frame0 f) (frame10 f) h
  end.

Definition alloc_of (v : Version) (f : Frames) (sz : Z) (h : Heap) : Outcome :=
  match v with
  | VLib => Lib.alloc (frame0 f) sz h
  | VOld => Old.alloc (frame0 f) (frame10 f) sz h
  end.

Definition stride_of (v : Version) : Z :=
  match v with VLib => Lib.stride | VOld => Old.stride end.

(** The heap a call leaves behind, whether it returned or aborted. *)
Definition final_heap (r : Outcome) : Heap :=
  match r with Returned _ h => h | Aborted _ h => h end.

(** Some chunk of [m_freed_chunks] has [size >= sz]. *)
Definition fits_freed (sz : Z) (h : Heap) : bool :=
  existsb (fun p => sz <=? size (deref (objs h) p)) (m_freed_chunks h).


(** The address a call returned, if it returned. *)
Definition returned_addr (r : Outcome) : option Z :=
  match r with Returned a _ => Some a | Aborted _ _ => None end.

(** A sequence of [alloc] calls: the addresses returned and the last heap,
    or [None] when a call aborts. *)
Fixpoint alloc_all (v : Version) (f : Frames) (sizes : list Z) (h : Heap)
  : option (list Z * Heap) :=
  match sizes with
  | [] => Some ([], h)
  | sz :: sizes' =>
      match alloc_of v f sz h with
      | Returned a h1 =>
          match alloc_all v f sizes' h1 with
          | Some (addrs, h2) => Some (a :: addrs, h2)
          | None => None
          end
      | Aborted _ _ => None
      end
  end.

(** [init] is not among the sources; the header documents that it saves the
    address of the topmost stack frame ([m_stack_top]). *)
Definition with_stack_top (h : Heap) (t : Z) : Heap :=
  mkHeap (m_heap h) (m_size h) t (m_allocated_chunks h) (m_freed_chunks h)
         (objs h) (next_obj h) (collect_calls h).

(** The stack as the spec's mark phase reads it: the word at each address.
    Chunk [p] is witnessed when its start address is the word of some slot
    of the range [lo, hi). *)
Definition witnessed (stack : Z -> Z) (lo hi : Z) (o : gmap nat Chunk)
  (p : nat) : Prop :=
  exists k : Z, 0 <= k /\ lo + WORD * k < hi /\
                stack (lo + WORD * k) = start (deref o p).

(** The chunks of [l], in this order, tile the region [a, e): each starts
    where the one before it ends. *)
Fixpoint tiles (o : gmap nat Chunk) (a : Z) (l : list nat) (e : Z) : Prop :=
  match l with
  | [] => a = e
  | p :: l' =>
      start (deref o p) = a /\ tiles o (a + size (deref o p)) l' e
  end.

(** The sum of the sizes of the chunks of [l]. *)
Fixpoint total_size (o : gmap nat Chunk) (l : list nat) : Z :=
  match l with
  | [] => 0
  | p :: l' => size (deref o p) + total_size o l'
  end.

(** Ascending order of the start addresses. *)
Definition sorted_by_start (o : gmap nat Chunk) (l : list nat) : Prop :=
  StronglySorted (fun p q => start (deref o p) <= start (deref o q)) l.

(** The descriptors the vector [l] points to are distinct, live, and carry a
    [size_t] size. *)
Definition live_chunks (o : gmap nat Chunk) (l : list nat) : Prop :=
  NoDup l /\
  forall p, In p l -> is_Some (o !! p) /\ 0 <= size (deref o p) < 2 ^ 64.

(** Regions [(addr, size)] handed out by [alloc]: inside the arena that
    starts at [base], and disjoint from one another. *)
Definition in_arena (base : Z) (r : Z * Z) : Prop :=
  base <= fst r /\ fst r + snd r <= base + HEAP_SIZE.

Definition disjoint (r1 r2 : Z * Z) : Prop :=
  fst r1 + snd r1 <= fst r2 \/ fst r2 + snd r2 <= fst r1.

Fixpoint sum_sizes (sizes : list Z) : Z :=
  match sizes with
  | [] => 0
  | sz :: sizes' => sz + sum_sizes sizes'
  end.

(** Every call of the sequence returns, and the regions returned are
    pairwise disjoint and inside the arena. *)
Definition alloc_all_ok (v : Version) (f : Frames) (sizes : list Z) (h : Heap)
  : Prop :=
  exists addrs h',
    alloc_all v f sizes h = Some (addrs, h') /\
    length addrs = length sizes /\
    Forall (in_arena (m_heap h)) (combine addrs sizes) /\
    ForallOrdPairs disjoint (combine addrs sizes).

(** [o'] has the descriptors of [o], with the same extents. *)
Definition same_extents (o o' : gmap nat Chunk) : Prop :=
  forall q, (is_Some (o' !! q) <-> is_Some (o !! q)) /\
            start (deref o' q) = start (deref o q) /\
            size (deref o' q) = size (deref o q).

(** ** Concrete heaps used as test inputs *)


(** One freed chunk of 128 bytes at the arena base. *)
Definition heap_with_freed_128 : Heap :=
  mkHeap 4096 128 2000 [] [0%nat] {[0%nat := mkChunk false 4096 128]} 1 0.

(** One allocated, unmarked chunk of 8 bytes at the arena base. *)
Definition heap_with_root : Heap :=
  mkHeap 4096 8 2000 [0%nat] [] {[0%nat := mkChunk false 4096 8]} 1 0.

(** A stack whose slot at address 1000 holds the address 4096. *)
Definition stack_with_root (a : Z) : Z := if a =? 1000 then 4096 else 0.

(** One allocated chunk that a mark phase has marked. *)
Definition heap_with_marked : Heap :=
  mkHeap 4096 8 2000 [0%nat] [] {[0%nat := mkChunk true 4096 8]} 1 0.

(** One allocated chunk of 64 bytes that starts 64 bytes into the arena, and
    one freed chunk below it; the bump offset is 128. *)
Definition heap_with_gap : Heap :=
  mkHeap 4096 128 2000 [0%nat] [1%nat]
         {[0%nat := mkChunk false 4160 64; 1%nat := mkChunk false 4096 64]} 2 0.

(** Two freed chunks, of 16 and of 64 bytes; the bump offset is 80. *)
Definition heap_with_two_freed : Heap :=
  mkHeap 4096 80 2000 [] [0%nat; 1%nat]
         {[0%nat := mkChunk false 4096 16; 1%nat := mkChunk false 4112 64]} 2 0.

(** One allocated chunk of 16 bytes whose extent lies inside the address
    range [1000, 2000). *)
Definition heap_in_scanned_range : Heap :=
  mkHeap 1008 16 2000 [0%nat] [] {[0%nat := mkChunk false 1008 16]} 1 0.

(** [o'] is [o] with the mark bit set on some descriptors of [wl]. *)
Definition marks_only (wl : list nat) (o o' : gmap nat Chunk) : Prop :=
  forall q,
    o' !! q = o !! q \/
    (In q wl /\
     o' !! q = (fun c => mkChunk true (start c) (size c)) <$> (o !! q)).

(** Every descriptor marked in [o'] and not in [o] has an address of the
    range [a, e) in its extent. *)
Definition marks_within (stride a e : Z) (o o' : gmap nat Chunk) : Prop :=
  forall q,
    marked (deref o q) = false -> marked (deref o' q) = true ->
    exists x, a <= x < e /\
              start (deref o q) <= x
                < ptr_add stride (start (deref o q)) (size (deref o q)).

(** No descriptor of the store carries the mark bit. *)
Definition all_unmarked (o : gmap nat Chunk) : Prop :=
  forall q c, o !! q = Some c -> marked c = false.

(** [o'] has the descriptors of [o], with the same sizes and mark bits. *)
Definition same_sizes_and_marks (o o' : gmap nat Chunk) : Prop :=
  forall q, (is_Some (o' !! q) <-> is_Some (o !! q)) /\
            size (deref o' q) = size (deref o q) /\
            marked (deref o' q) = marked (deref o q).

(** The shape of every heap that heap.cpp builds by allocation: nothing
    freed, and the allocated chunks, in the order of the vector, tile the
    used part [m_heap, m_heap + m_size) of the arena. *)
Definition bump_tiled (h : Heap) : Prop :=
  m_freed_chunks h = [] /\ 0 <= m_size h <= HEAP_SIZE /\
  tiles (objs h) (m_heap h) (m_allocated_chunks h) (m_heap h + m_size h) /\
  forall p, In p (m_allocated_chunks h) ->
            (p < next_obj h)%nat /\ 0 < size (deref (objs h) p).


(** ** Frame properties of the pieces of [alloc] and [collect] *)

Lemma alloc_of_unfold v f sz h :
  alloc_of v f sz h = alloc_with (stride_of v) (collect_of v f) sz h.
Proof. destruct v; reflexivity. Qed.

Lemma reuse_loop_frame stride sz h rest i a h' :
  reuse_loop stride sz h rest i = Some (a, h') ->
  m_size h' = m_size h /\ collect_calls h' = collect_calls h /\
  m_heap h' = m_heap h.
Proof.
  revert i. induction rest as [|cp rest IH]; intros i; simpl; [discriminate|].
  destruct (sz <? size (deref (objs h) cp)).
  - intros [= <- <-]. auto.
  - destruct (size (deref (objs h) cp) =? sz).
    + intros [= <- <-]. auto.
    + apply IH.
Qed.


Lemma release_fields h :
  m_size (release h) = m_size h /\ m_freed_chunks (release h) = [] /\
  collect_calls (release h) = collect_calls h /\
  m_allocated_chunks (release h) = m_allocated_chunks h /\
  m_heap (release h) = m_heap h.
Proof. unfold release. simpl. auto. Qed.

Lemma lib_sweep_fields h :
  m_size (Lib.sweep h) = m_size h /\
  collect_calls (Lib.sweep h) = collect_calls h /\
  objs (Lib.sweep h) = objs h /\ m_heap (Lib.sweep h) = m_heap h.
Proof.
  unfold Lib.sweep.
  destruct (Lib.sweep_loop _ _ _ _) as [al fr]. simpl. auto.
Qed.

Lemma collect_of_fields v f h :
  m_size (collect_of v f h) = m_size h /\
  m_freed_chunks (collect_of v f h) = [] /\
  collect_calls (collect_of v f h) = S (collect_calls h).
Proof.
  destruct v; unfold collect_of.
  - unfold Lib.collect, Lib.stack_bounds.
    match goal with
    | |- context [release ?x] =>
        destruct (release_fields x) as (-> & -> & -> & _)
    end.
    match goal with
    | |- context [Lib.sweep ?x] =>
        destruct (lib_sweep_fields x) as (-> & -> & _)
    end.
    simpl. auto.
  - unfold Old.collect, Old.stack_bounds.
    match goal with
    | |- context [release ?x] =>
        destruct (release_fields x) as (-> & -> & -> & _)
    end.
    simpl. auto.
Qed.

(** ** The assertion on the request size *)

(** C9: [alloc(0)] fails with InvalidRequest, at the call and with the heap
    untouched; for every [size > 0] that assertion does not fire. Both
    versions. *)
Theorem alloc_invalid_request_iff_zero v f sz h :
  (sz = 0 -> alloc_of v f sz h = Aborted InvalidRequest h) /\
  (0 < sz -> forall h', alloc_of v f sz h <> Aborted InvalidRequest h').
Proof.
  rewrite alloc_of_unfold. unfold alloc_with. split.
  - intros ->. reflexivity.
  - intros Hpos h'.
    replace (0 <? sz) with true by (symmetry; apply Z.ltb_lt; lia).
    cbn [negb].
    destruct (HEAP_SIZE <? wrap (m_size h + sz)).
    + destruct (wrap (m_size (collect_of v f h) + sz) <=? HEAP_SIZE).
      * destruct (alloc_tail _ _ _). discriminate.
      * discriminate.
    + destruct (alloc_tail _ _ _). discriminate.
Qed.

Lemma alloc_invalid_request_iff_zero_witness :
  alloc_of VLib (mkFrames 1000 2000) 0 (fresh_heap 4096 2000)
    = Aborted InvalidRequest (fresh_heap 4096 2000) /\
  alloc_of VOld (mkFrames 1000 2000) 5 (fresh_heap 4096 2000)
    <> Aborted InvalidRequest (fresh_heap 4096 2000).
Proof.
  split.
  - apply (alloc_invalid_request_iff_zero VLib (mkFrames 1000 2000) 0
             (fresh_heap 4096 2000)); reflexivity.
  - apply (alloc_invalid_request_iff_zero VOld (mkFrames 1000 2000) 5
             (fresh_heap 4096 2000)); lia.
Defined.

(** ** The capacity check and the call of [collect()] *)

(** C10: in both versions [collect()] leaves [m_size] as it was and returns
    with [m_freed_chunks] empty; so when [alloc] calls it because
    [m_size + size > HEAP_SIZE], the inequality still holds at the second
    check, nothing is left to reuse, and the call aborts with OutOfMemory. *)
Theorem collect_then_retry_never_succeeds v f sz h :
  (m_size (collect_of v f h) = m_size h /\
   m_freed_chunks (collect_of v f h) = []) /\
  (0 < sz -> HEAP_SIZE < wrap (m_size h + sz) ->
   HEAP_SIZE < wrap (m_size (collect_of v f h) + sz) /\
   fits_freed sz (collect_of v f h) = false /\
   alloc_of v f sz h = Aborted OutOfMemory (collect_of v f h)).
Proof.
  destruct (collect_of_fields v f h) as (Hm & Hf & _).
  split; [auto|]. intros Hpos Hcap.
  split; [rewrite Hm; exact Hcap|].
  split; [unfold fits_freed; rewrite Hf; reflexivity|].
  rewrite alloc_of_unfold. unfold alloc_with.
  replace (0 <? sz) with true by (symmetry; apply Z.ltb_lt; lia).
  cbn [negb].
  replace (HEAP_SIZE <? wrap (m_size h + sz)) with true
    by (symmetry; apply Z.ltb_lt; lia).
  rewrite Hm.
  replace (wrap (m_size h + sz) <=? HEAP_SIZE) with false
    by (symmetry; apply Z.leb_gt; lia).
  reflexivity.
Qed.

Lemma collect_then_retry_never_succeeds_witness :
  alloc_of VLib (mkFrames 1000 2000) (HEAP_SIZE + 1) (fresh_heap 4096 2000)
  = Aborted OutOfMemory (collect_of VLib (mkFrames 1000 2000) (fresh_heap 4096 2000)).
Proof.
  apply (collect_then_retry_never_succeeds VLib (mkFrames 1000 2000)
           (HEAP_SIZE + 1) (fresh_heap 4096 2000)); vm_compute; reflexivity.
Defined.




(** ** The address of a fresh chunk *)

Lemma bump_alloc_spec stride sz h :
  fst (bump_alloc stride sz h) = m_heap h + stride * m_size h /\
  m_size (snd (bump_alloc stride sz h)) = wrap (m_size h + sz) /\
  m_allocated_chunks (snd (bump_alloc stride sz h))
    = m_allocated_chunks h ++ [next_obj h] /\
  objs (snd (bump_alloc stride sz h))
    = <[next_obj h := mkChunk false (m_heap h + stride * m_size h) sz]> (objs h).
Proof. unfold bump_alloc, ptr_add. simpl. auto. Qed.

(** C8: on a heap with [m_size = 8] and nothing to reuse, [alloc(16)] of
    lib/heap.cpp returns [m_heap + 8 * 8], that is 64 bytes past the arena
    base and not 8; it advances [m_size] by 16. The same call of heap.cpp
    returns [m_heap + 8]. *)
Theorem lib_bump_address_is_scaled_by_word_size :
  let f := mkFrames 1000 2000 in
  let hl := final_heap (alloc_of VLib f 8 (fresh_heap 4096 2000)) in
  let ho := final_heap (alloc_of VOld f 8 (fresh_heap 4096 2000)) in
  m_heap hl = 4096 /\ m_size hl = 8 /\ m_freed_chunks hl = [] /\
  returned_addr (alloc_of VLib f 16 hl) = Some (4096 + 8 * 8) /\
  m_size (final_heap (alloc_of VLib f 16 hl)) = 8 + 16 /\
  m_heap ho = 4096 /\ m_size ho = 8 /\
  returned_addr (alloc_of VOld f 16 ho) = Some (4096 + 8).
Proof. vm_compute. repeat split; reflexivity. Qed.

(** ** Reuse of a freed chunk *)

(** C3: with one freed chunk [{start = 4096, size = 128}], [alloc(32)]
    returns 4096 and moves the chunk to [m_allocated_chunks], but the chunk
    keeps [size = 128], and the remainder pushed on [m_freed_chunks] starts
    at [start + 128] (scaled by 8 in lib/heap.cpp), not at [start + 32]; its
    size is [128 - 32]. *)
Theorem split_keeps_size_and_misplaces_remainder :
  let f := mkFrames 1000 2000 in
  let rl := alloc_of VLib f 32 heap_with_freed_128 in
  let ro := alloc_of VOld f 32 heap_with_freed_128 in
  returned_addr rl = Some 4096 /\
  m_allocated_chunks (final_heap rl) = [0%nat] /\
  m_freed_chunks (final_heap rl) = [1%nat] /\
  objs (final_heap rl) !! 0%nat = Some (mkChunk false 4096 128) /\
  objs (final_heap rl) !! 1%nat = Some (mkChunk false (4096 + 8 * 128) 96) /\
  returned_addr ro = Some 4096 /\
  m_allocated_chunks (final_heap ro) = [0%nat] /\
  m_freed_chunks (final_heap ro) = [1%nat] /\
  objs (final_heap ro) !! 0%nat = Some (mkChunk false 4096 128) /\
  objs (final_heap ro) !! 1%nat = Some (mkChunk false (4096 + 128) 96).
Proof. vm_compute. repeat split; reflexivity. Qed.

(** ** Sequences of allocations *)

(** C2: in lib/heap.cpp the calls [alloc(120120120); alloc(1)] on a fresh
    heap both return, but the second address is [m_heap + 8 * 120120120],
    beyond the end [m_heap + HEAP_SIZE] of the arena: the sequence does not
    satisfy the property. *)
Theorem lib_alloc_leaves_arena :
  let f := mkFrames 1000 2000 in
  let sizes := [120120120; 1] in
  Forall (fun sz => 0 < sz) sizes /\ sum_sizes sizes <= HEAP_SIZE /\
  fst <$> alloc_all VLib f sizes (fresh_heap 4096 2000)
    = Some [4096; 4096 + 8 * 120120120] /\
  ~ in_arena 4096 (4096 + 8 * 120120120, 1) /\
  ~ alloc_all_ok VLib f sizes (fresh_heap 4096 2000).
Proof.
  cbv zeta.
  assert (Hrun : fst <$> alloc_all VLib (mkFrames 1000 2000) [120120120; 1]
                           (fresh_heap 4096 2000)
                 = Some [4096; 4096 + 8 * 120120120])
    by (vm_compute; reflexivity).
  assert (Hout : ~ in_arena 4096 (4096 + 8 * 120120120, 1)).
  { unfold in_arena, HEAP_SIZE. simpl. lia. }
  split; [repeat constructor|]. split; [vm_compute; discriminate|].
  split; [exact Hrun|]. split; [exact Hout|].
  intros (addrs & h' & Hall & _ & Hin & _).
  rewrite Hall in Hrun. simpl in Hrun. injection Hrun as ->.
  cbn [combine] in Hin. apply Forall_cons in Hin as [_ Hin].
  apply Forall_cons in Hin as [Hin _]. apply Hout. exact Hin.
Qed.

(** ** The range of the stack scan *)

(** C4: [collect()] never reads [m_stack_top]: its result is the same
    whatever address [init] recorded there. The bounds it passes to [mark]
    are the current frame and the null pointer (lib/heap.cpp), or the
    current frame and the frame ten calls up (heap.cpp). *)
Theorem collect_ignores_recorded_stack_top v f h t :
  collect_of v f (with_stack_top h t) = with_stack_top (collect_of v f h) t /\
  Lib.stack_bounds (frame0 f) (with_stack_top h t) = (frame0 f, 0) /\
  Old.stack_bounds (frame0 f) (frame10 f) (with_stack_top h t)
    = (frame0 f, frame10 f).
Proof.
  split; [|split; reflexivity].
  destruct v; unfold collect_of.
  - unfold Lib.collect, Lib.stack_bounds, Lib.sweep. simpl.
    destruct (Lib.sweep_loop _ _ _ _). reflexivity.
  - reflexivity.
Qed.

(** ** Mark *)

(** With the null pointer as end of the range the loop of [mark] does not
    run at all. *)
Lemma mark_null_end stride a wl o : 0 <= a -> mark stride a 0 wl o = o.
Proof.
  intros Ha. unfold mark. cbn [mark_rec].
  destruct (slots a 0) as [|n]; [reflexivity|].
  cbn [mark_scan].
  replace (a <? 0) with false by (symmetry; apply Z.ltb_ge; lia).
  reflexivity.
Qed.

(** C1: a heap with one allocated chunk at 4096, and a stack whose slot at
    address 1000 holds 4096, scanned from the frame at 1000. [mark] compares
    the addresses of the slots, never the words they hold: in lib/heap.cpp
    the chunk is not marked, is swept and its descriptor deleted; in heap.cpp
    it stays in [m_allocated_chunks] (nothing is swept) but is not marked. *)
Theorem collect_drops_chunk_witnessed_by_stack_word :
  let h := heap_with_root in
  witnessed stack_with_root 1000 2000 (objs h) 0%nat /\
  m_allocated_chunks h = [0%nat] /\
  m_allocated_chunks (Lib.collect 1000 h) = [] /\
  objs (Lib.collect 1000 h) !! 0%nat = None /\
  mark Lib.stride 1000 2000 (m_allocated_chunks h) (objs h) = objs h /\
  m_allocated_chunks (Old.collect 1000 2000 h) = [0%nat] /\
  marked (deref (objs (Old.collect 1000 2000 h)) 0%nat) = false.
Proof.
  cbv zeta. split.
  - exists 0. vm_compute. repeat split; discriminate || reflexivity.
  - vm_compute. repeat split; reflexivity.
Qed.

(** ** Sweep *)

Lemma sweep_loop_spec o rest : forall kept freed,
  Lib.sweep_loop o kept rest freed =
  (kept ++ List.filter (fun p => marked (deref o p)) rest,
   freed ++ List.filter (fun p => negb (marked (deref o p))) rest).
Proof.
  induction rest as [|p rest IH]; intros kept freed; simpl.
  - by rewrite !app_nil_r.
  - destruct (marked (deref o p)); simpl; rewrite IH, <- app_assoc; reflexivity.
Qed.

(** C5, as the spec states it, fails: a marked chunk stays in
    [m_allocated_chunks] with its flag still set. *)
Lemma sweep_leaves_mark_set :
  ~ (forall h p, In p (m_allocated_chunks (Lib.sweep h)) ->
       marked (deref (objs (Lib.sweep h)) p) = false).
Proof.
  intros H. specialize (H heap_with_marked 0%nat).
  vm_compute in H. specialize (H (or_introl eq_refl)). discriminate.
Qed.

(** C5, amended: after [sweep] the chunks that were unmarked have been moved,
    in order, to the end of [m_freed_chunks]; the marked ones remain in
    [m_allocated_chunks] in their order; no descriptor is changed, so every
    chunk left in [m_allocated_chunks] still carries [marked = true] and
    every chunk moved carries [marked = false]. *)
Theorem sweep_moves_unmarked_and_keeps_flags h :
  m_allocated_chunks (Lib.sweep h)
    = List.filter (fun p => marked (deref (objs h) p)) (m_allocated_chunks h) /\
  m_freed_chunks (Lib.sweep h)
    = m_freed_chunks h
      ++ List.filter (fun p => negb (marked (deref (objs h) p)))
                     (m_allocated_chunks h) /\
  objs (Lib.sweep h) = objs h /\
  (forall p, In p (m_allocated_chunks (Lib.sweep h)) ->
     In p (m_allocated_chunks h) /\
     marked (deref (objs (Lib.sweep h)) p) = true) /\
  (forall p, In p (m_allocated_chunks h) ->
     marked (deref (objs h) p) = false ->
     In p (m_freed_chunks (Lib.sweep h)) /\
     ~ In p (m_allocated_chunks (Lib.sweep h))).
Proof.
  unfold Lib.sweep. rewrite sweep_loop_spec. cbn [with_lists m_allocated_chunks
    m_freed_chunks objs app].
  split; [reflexivity|]. split; [reflexivity|]. split; [reflexivity|]. split.
  - intros p Hp. apply filter_In in Hp. exact Hp.
  - intros p Hp Hm. split.
    + apply in_or_app. right. apply filter_In. rewrite Hm. auto.
    + intros Hin. apply filter_In in Hin. destruct Hin as [_ Hin]. congruence.
Qed.

Lemma sweep_moves_unmarked_and_keeps_flags_witness :
  In 0%nat (m_allocated_chunks (Lib.sweep heap_with_marked)) /\
  marked (deref (objs (Lib.sweep heap_with_marked)) 0%nat) = true.
Proof.
  apply (sweep_moves_unmarked_and_keeps_flags heap_with_marked).
  vm_compute. auto.
Defined.

(** In lib/heap.cpp a whole [collect()] keeps exactly the chunks that were
    already marked when it was called: its [mark] scans nothing, so every
    unmarked chunk is swept, whatever the stack holds. *)
Lemma lib_collect_keeps_only_marked frame h :
  0 <= frame ->
  m_allocated_chunks (Lib.collect frame h)
  = List.filter (fun p => marked (deref (objs h) p)) (m_allocated_chunks h).
Proof.
  intros Hf. unfold Lib.collect, Lib.stack_bounds.
  rewrite mark_null_end by exact Hf.
  match goal with
  | |- context [release ?x] =>
      destruct (release_fields x) as (_ & _ & _ & -> & _)
  end.
  unfold Lib.sweep. rewrite sweep_loop_spec. reflexivity.
Qed.

(** ** Compaction *)

Lemma insert_chunk_perm o c l : Permutation (c :: l) (Old.insert_chunk o c l).
Proof.
  induction l as [|c' l IH]; simpl; [reflexivity|].
  destruct (Old.compareChunks o c' c); [|reflexivity].
  rewrite perm_swap. by constructor.
Qed.

Lemma sort_chunks_perm o l : Permutation l (Old.sort_chunks o l).
Proof.
  induction l as [|c l IH]; simpl; [constructor|].
  rewrite <- insert_chunk_perm. by constructor.
Qed.

Lemma deref_ext o o' p : o !! p = o' !! p -> deref o p = deref o' p.
Proof. unfold deref. by intros ->. Qed.

(** One step of the loop of [compact] on a live descriptor. *)
Lemma slide_step o space a :
  is_Some (o !! space) ->
  let o1 := if negb (start (deref o space) =? a)
            then set_start space a o else o in
  deref o1 space = mkChunk (marked (deref o space)) a (size (deref o space)) /\
  (forall q, q <> space -> o1 !! q = o !! q) /\
  (forall q, is_Some (o1 !! q) <-> is_Some (o !! q)).
Proof.
  intros [c Hc]. unfold deref. rewrite Hc. simpl.
  destruct (start c =? a) eqn:E; simpl.
  - apply Z.eqb_eq in E. rewrite Hc. simpl. subst a. by destruct c.
  - unfold set_start. split; [|split].
    + rewrite lookup_alter_eq, Hc. reflexivity.
    + intros q Hq. by rewrite lookup_alter_ne.
    + intros q. destruct (decide (space = q)) as [<-|Hne].
      * rewrite lookup_alter_eq, Hc. simpl. split; eauto.
      * by rewrite lookup_alter_ne.
Qed.

Lemma total_size_ext o o' l :
  (forall p, In p l -> size (deref o' p) = size (deref o p)) ->
  total_size o' l = total_size o l.
Proof.
  induction l as [|p l IH]; intros H; simpl; [reflexivity|].
  rewrite H by (left; reflexivity). rewrite IH; [reflexivity|].
  intros q Hq. apply H. by right.
Qed.

Lemma compact_loop_spec l : forall a o,
  NoDup l -> (forall p, In p l -> is_Some (o !! p)) ->
  tiles (Old.compact_loop l a o) a l (a + total_size o l) /\
  (forall q, ~ In q l -> Old.compact_loop l a o !! q = o !! q) /\
  (forall q, size (deref (Old.compact_loop l a o) q) = size (deref o q) /\
             marked (deref (Old.compact_loop l a o) q) = marked (deref o q)).
Proof.
  induction l as [|space l IH]; intros a o Hnd Hlive.
  - simpl. split; [lia|]. auto.
  - apply NoDup_cons in Hnd as [Hnotin Hnd].
    rewrite list_elem_of_In in Hnotin.
    cbn [Old.compact_loop].
    destruct (slide_step o space a) as (Hsp & Hother & Hsome).
    { apply Hlive. by left. }
    set (o1 := if negb (start (deref o space) =? a)
               then set_start space a o else o) in *.
    assert (Hloop : Old.compact_loop l (a + size (deref o space)) o1 =
                    (if negb (start (deref o space) =? a)
                     then Old.compact_loop l (a + size (deref o space))
                            (set_start space a o)
                     else Old.compact_loop l (a + size (deref o space)) o)).
    { unfold o1. by destruct (negb _). }
    rewrite <- Hloop. clear Hloop.
    destruct (IH (a + size (deref o space)) o1 Hnd) as (Ht & Hout & Hsz).
    { intros p Hp. apply Hsome. apply Hlive. by right. }
    assert (Hd1 : forall q, size (deref o1 q) = size (deref o q) /\
                            marked (deref o1 q) = marked (deref o q)).
    { intros q. destruct (decide (q = space)) as [->|Hne].
      - rewrite Hsp. simpl. auto.
      - rewrite (deref_ext o1 o q (Hother q Hne)). auto. }
    assert (Hsp' : deref (Old.compact_loop l (a + size (deref o space)) o1) space
                   = deref o1 space).
    { apply deref_ext, Hout, Hnotin. }
    split; [|split].
    + cbn [tiles]. rewrite Hsp', Hsp. cbn [start size]. split; [reflexivity|].
      cbn [total_size].
      rewrite (total_size_ext o o1 l) in Ht by (intros p _; apply Hd1).
      replace (a + (size (deref o space) + total_size o l))
        with (a + size (deref o space) + total_size o l) by lia.
      exact Ht.
    + intros q Hq. rewrite Hout by (intros Hin; apply Hq; by right).
      apply Hother. intros ->. apply Hq. by left.
    + intros q. destruct (Hsz q) as [-> ->]. apply Hd1.
Qed.

Lemma tiles_sorted o l : forall a e,
  tiles o a l e -> (forall p, In p l -> 0 <= size (deref o p)) ->
  sorted_by_start o l /\ Forall (fun p => a <= start (deref o p)) l /\ a <= e.
Proof.
  unfold sorted_by_start.
  induction l as [|p l IH]; intros a e Ht Hsz; simpl in Ht.
  - split; [constructor|]. split; [constructor|lia].
  - destruct Ht as [Hs Ht].
    assert (Hp : 0 <= size (deref o p)) by (apply Hsz; by left).
    destruct (IH _ _ Ht) as (Hsorted & Hall & Hle).
    { intros q Hq. apply Hsz. by right. }
    split; [|split].
    + constructor; [exact Hsorted|].
      eapply Forall_impl; [exact Hall|]. simpl. intros q Hq. lia.
    + constructor; [lia|].
      eapply Forall_impl; [exact Hall|]. simpl. intros q Hq. lia.
    + lia.
Qed.

Lemma total_size_perm o l l' :
  Permutation l l' -> total_size o l = total_size o l'.
Proof.
  induction 1; simpl; lia.
Qed.

Lemma live_chunks_perm o l l' :
  Permutation l l' -> live_chunks o l -> live_chunks o l'.
Proof.
  intros Hp [Hnd Hl]. split.
  - by rewrite <- Hp.
  - intros p Hin. apply Hl. eapply Permutation_in; [symmetry; exact Hp|exact Hin].
Qed.

(** What [compact] does to a heap whose allocated vector is well formed. *)
Lemma compact_spec h :
  live_chunks (objs h) (m_allocated_chunks h) ->
  Permutation (m_allocated_chunks h) (m_allocated_chunks (Old.compact h)) /\
  sorted_by_start (objs (Old.compact h)) (m_allocated_chunks (Old.compact h)) /\
  tiles (objs (Old.compact h)) (m_heap h) (m_allocated_chunks (Old.compact h))
        (m_heap h + total_size (objs h) (m_allocated_chunks h)) /\
  (forall p, size (deref (objs (Old.compact h)) p) = size (deref (objs h) p) /\
             marked (deref (objs (Old.compact h)) p) = marked (deref (objs h) p)) /\
  (forall q, ~ In q (m_allocated_chunks h) ->
             objs (Old.compact h) !! q = objs h !! q).
Proof.
  intros Hlive.
  pose proof (sort_chunks_perm (objs h) (m_allocated_chunks h)) as Hperm.
  pose proof (live_chunks_perm _ _ _ Hperm Hlive) as [Hnd Hl].
  unfold Old.compact. cbn [with_objs with_lists objs m_allocated_chunks m_heap].
  set (sorted := Old.sort_chunks (objs h) (m_allocated_chunks h)) in *.
  destruct (compact_loop_spec sorted (m_heap h) (objs h) Hnd) as (Ht & Hout & Hsz).
  { intros p Hp. by apply Hl. }
  rewrite <- (total_size_perm (objs h) _ _ Hperm) in Ht.
  split; [exact Hperm|]. split; [|split; [exact Ht|split; [exact Hsz|]]].
  - eapply tiles_sorted; [exact Ht|].
    intros p Hp. destruct (Hsz p) as [-> _]. by apply Hl.
  - intros q Hq. apply Hout. intros Hin. apply Hq.
    eapply Permutation_in; [symmetry; exact Hperm|exact Hin].
Qed.

(** ** [mark] changes nothing but mark bits *)

Lemma same_extents_refl o : same_extents o o.
Proof. intros q. auto. Qed.

Lemma same_extents_trans o1 o2 o3 :
  same_extents o1 o2 -> same_extents o2 o3 -> same_extents o1 o3.
Proof.
  intros H12 H23 q. destruct (H12 q) as (A1 & B1 & C1).
  destruct (H23 q) as (A2 & B2 & C2).
  split; [tauto|]. split; congruence.
Qed.

Lemma set_marked_same_extents p o : same_extents o (set_marked p o).
Proof.
  intros q. unfold set_marked, deref.
  destruct (decide (p = q)) as [<-|Hne].
  - rewrite lookup_alter_eq. destruct (o !! p) as [c|]; simpl.
    + split; [split; eauto|]. auto.
    + split; [tauto|]. auto.
  - rewrite lookup_alter_ne by done. auto.
Qed.

Lemma mark_scan_same_extents stride k e :
  (forall a wl o, same_extents o (k a wl o)) ->
  forall n a wl o, same_extents o (mark_scan stride k n a e wl o).
Proof.
  intros Hk. induction n as [|n IH]; intros a wl o; cbn [mark_scan].
  - apply same_extents_refl.
  - destruct (a <? e); [|apply same_extents_refl].
    destruct (find_hit stride o a wl 0) as [[i p]|].
    + eapply same_extents_trans; [apply set_marked_same_extents|apply Hk].
    + apply IH.
Qed.

Lemma mark_rec_same_extents stride e d :
  forall a wl o, same_extents o (mark_rec stride d a e wl o).
Proof.
  induction d as [|d IH]; intros a wl o; cbn [mark_rec].
  - apply same_extents_refl.
  - apply mark_scan_same_extents. intros a' wl' o'. apply IH.
Qed.

Lemma mark_same_extents stride a e wl o : same_extents o (mark stride a e wl o).
Proof. apply mark_rec_same_extents. Qed.

Lemma release_loop_other l : forall o q,
  ~ In q l -> release_loop l o !! q = o !! q.
Proof.
  induction l as [|p l IH]; intros o q Hq; simpl; [reflexivity|].
  rewrite IH by (intros H; apply Hq; by right).
  apply lookup_delete_ne. intros ->. apply Hq. by left.
Qed.

Lemma tiles_ext o o' l : forall a e,
  (forall p, In p l -> deref o' p = deref o p) ->
  tiles o a l e -> tiles o' a l e.
Proof.
  induction l as [|p l IH]; intros a e Heq; simpl; [auto|].
  intros [Hs Ht]. rewrite (Heq p) by (by left). split; [exact Hs|].
  apply IH; [|exact Ht]. intros q Hq. apply Heq. by right.
Qed.

Lemma sorted_by_start_ext o o' l :
  (forall p, In p l -> deref o' p = deref o p) ->
  sorted_by_start o l -> sorted_by_start o' l.
Proof.
  unfold sorted_by_start. intros Heq Hs.
  induction Hs as [|p l Hs IH Hall]; [constructor|].
  constructor.
  - apply IH. intros q Hq. apply Heq. by right.
  - rewrite (Heq p) by (by left).
    rewrite Forall_forall in Hall. apply Forall_forall. intros q Hq.
    rewrite (Heq q); [by apply Hall|]. right. by apply list_elem_of_In.
Qed.

(** On a heap that heap.cpp does not build, with a gap below the one live
    chunk ([heap_with_gap]: 64 live bytes, [m_size = 128], one freed
    descriptor), neither [compact] nor the [collect()] around it lowers the
    bump offset, and [compact] alone leaves [m_freed_chunks] as it was. *)
Lemma compact_does_not_reset_bump :
  ~ (forall h, live_chunks (objs h) (m_allocated_chunks h) ->
       m_size (Old.compact h)
       = total_size (objs (Old.compact h)) (m_allocated_chunks (Old.compact h))) /\
  ~ (forall h, live_chunks (objs h) (m_allocated_chunks h) ->
       m_size (Old.collect 1000 2000 h)
       = total_size (objs (Old.collect 1000 2000 h))
                    (m_allocated_chunks (Old.collect 1000 2000 h))) /\
  ~ (forall h, live_chunks (objs h) (m_allocated_chunks h) ->
       m_freed_chunks (Old.compact h) = []).
Proof.
  assert (Hlive : live_chunks (objs heap_with_gap) (m_allocated_chunks heap_with_gap)).
  { split.
    - apply NoDup_singleton.
    - intros p [<-|[]]. vm_compute. split; [eauto|]. split; [discriminate|reflexivity]. }
  split; [|split]; intros H; specialize (H heap_with_gap Hlive);
    vm_compute in H; discriminate.
Qed.

(** X23: on every heap whose allocated vector lists distinct live
    descriptors, after [compact] the chunks of [m_allocated_chunks] are the
    ones from before, sorted ascending by start, and they tile
    [m_heap, m_heap + sum of their sizes) contiguously with no gaps;
    [compact] leaves [m_size] and [m_freed_chunks] as they were. The same
    holds after the whole [collect()] of heap.cpp, whose release loop then
    leaves [m_freed_chunks] empty. *)
Theorem compact_tiles_and_keeps_bump f h :
  live_chunks (objs h) (m_allocated_chunks h) ->
  (forall p, In p (m_allocated_chunks h) -> ~ In p (m_freed_chunks h)) ->
  let e := m_heap h + total_size (objs h) (m_allocated_chunks h) in
  let hc := Old.compact h in
  let hk := Old.collect (frame0 f) (frame10 f) h in
  (Permutation (m_allocated_chunks h) (m_allocated_chunks hc) /\
   sorted_by_start (objs hc) (m_allocated_chunks hc) /\
   tiles (objs hc) (m_heap h) (m_allocated_chunks hc) e /\
   m_size hc = m_size h /\ m_freed_chunks hc = m_freed_chunks h) /\
  (Permutation (m_allocated_chunks h) (m_allocated_chunks hk) /\
   sorted_by_start (objs hk) (m_allocated_chunks hk) /\
   tiles (objs hk) (m_heap h) (m_allocated_chunks hk) e /\
   m_size hk = m_size h /\ m_freed_chunks hk = []).
Proof.
  intros Hlive Hdisj. cbv zeta. split.
  - destruct (compact_spec h Hlive) as (Hp & Hs & Ht & _).
    repeat split; assumption || reflexivity.
  - unfold Old.collect, Old.stack_bounds.
    set (h1 := with_objs (count_collect h) _).
    assert (Hext : same_extents (objs h) (objs h1)) by apply mark_same_extents.
    assert (Hlive1 : live_chunks (objs h1) (m_allocated_chunks h1)).
    { destruct Hlive as [Hnd Hl]. split; [exact Hnd|].
      intros p Hp. destruct (Hext p) as (Hsome & _ & Hsz).
      destruct (Hl p Hp) as [Hs Hr]. rewrite Hsz. split; [by apply Hsome|exact Hr]. }
    destruct (compact_spec h1 Hlive1) as (Hp & Hs & Ht & _ & _).
    change (m_allocated_chunks h1) with (m_allocated_chunks h) in Hp, Ht.
    change (m_heap h1) with (m_heap h) in Ht.
    rewrite (total_size_ext (objs h) (objs h1)) in Ht
      by (intros p _; apply Hext).
    assert (Hkeep : forall p, In p (m_allocated_chunks (Old.compact h1)) ->
              deref (objs (release (Old.compact h1))) p
              = deref (objs (Old.compact h1)) p).
    { intros p Hin. apply deref_ext. unfold release. cbn [with_lists with_objs objs].
      apply release_loop_other. rewrite <- in_rev.
      change (m_freed_chunks (Old.compact h1)) with (m_freed_chunks h).
      apply Hdisj. eapply Permutation_in; [symmetry; exact Hp|exact Hin]. }
    destruct (release_fields (Old.compact h1)) as (-> & -> & _ & -> & _).
    split; [exact Hp|]. split; [|split; [|split; reflexivity]].
    + eapply sorted_by_start_ext; [exact Hkeep|exact Hs].
    + eapply tiles_ext; [exact Hkeep|exact Ht].
Qed.

Lemma compact_tiles_and_keeps_bump_witness :
  m_size (Old.compact heap_with_gap) = 128 /\
  m_freed_chunks (Old.collect 1000 2000 heap_with_gap) = [] /\
  tiles (objs (Old.compact heap_with_gap)) 4096
        (m_allocated_chunks (Old.compact heap_with_gap)) (4096 + 64).
Proof.
  assert (Hlive : live_chunks (objs heap_with_gap) (m_allocated_chunks heap_with_gap)).
  { split.
    - apply NoDup_singleton.
    - intros p [<-|[]]. vm_compute. split; [eauto|]. split; [discriminate|reflexivity]. }
  assert (Hdisj : forall p, In p (m_allocated_chunks heap_with_gap) ->
                            ~ In p (m_freed_chunks heap_with_gap)).
  { intros p [<-|[]] [H|[]]. discriminate. }
  destruct (compact_tiles_and_keeps_bump (mkFrames 1000 2000) heap_with_gap Hlive Hdisj)
    as ((_ & _ & Ht & Hm & _) & (_ & _ & _ & _ & Hf)).
  split; [exact Hm|]. split; [exact Hf|exact Ht].
Defined.

(** ** Sequences of allocations in heap.cpp *)

Lemma wrap_small z : 0 <= z <= HEAP_SIZE -> wrap z = z.
Proof.
  intros Hz. unfold wrap. apply Z.mod_small.
  unfold HEAP_SIZE in Hz. change (2 ^ 64) with 18446744073709551616. lia.
Qed.

(** A call of [alloc] that finds nothing to reuse and enough room. *)
Lemma alloc_bump v f sz h :
  0 < sz -> 0 <= m_size h -> m_size h + sz <= HEAP_SIZE ->
  m_freed_chunks h = [] ->
  exists h',
    alloc_of v f sz h = Returned (m_heap h + stride_of v * m_size h) h' /\
    m_size h' = m_size h + sz /\ m_freed_chunks h' = [] /\
    m_heap h' = m_heap h.
Proof.
  intros Hpos Hm Hcap Hfr. rewrite alloc_of_unfold. unfold alloc_with.
  replace (0 <? sz) with true by (symmetry; apply Z.ltb_lt; lia).
  cbn [negb]. rewrite wrap_small by lia.
  replace (HEAP_SIZE <? m_size h + sz) with false
    by (symmetry; apply Z.ltb_ge; lia).
  unfold alloc_tail. rewrite Hfr. cbn [reuse_loop].
  unfold bump_alloc, ptr_add. cbn.
  eexists. split; [reflexivity|]. cbn. rewrite wrap_small by lia. auto.
Qed.

Lemma old_alloc_all_from f sizes : forall h,
  Forall (fun sz => 0 < sz) sizes ->
  0 <= m_size h -> m_size h + sum_sizes sizes <= HEAP_SIZE ->
  m_freed_chunks h = [] ->
  exists addrs h',
    alloc_all VOld f sizes h = Some (addrs, h') /\
    length addrs = length sizes /\
    Forall (fun r => m_heap h + m_size h <= fst r /\
                     fst r + snd r <= m_heap h + m_size h + sum_sizes sizes)
           (combine addrs sizes) /\
    ForallOrdPairs disjoint (combine addrs sizes).
Proof.
  induction sizes as [|sz sizes IH]; intros h Hpos Hm Hcap Hfr.
  - exists [], h. simpl. repeat split; constructor.
  - apply Forall_cons in Hpos as [Hsz Hpos]. cbn [sum_sizes] in *.
    assert (Hsum : 0 <= sum_sizes sizes).
    { clear -Hpos. induction Hpos; simpl; lia. }
    destruct (alloc_bump VOld f sz h) as (h1 & Ha & Hm1 & Hf1 & Hb1);
      [lia..|exact Hfr|].
    destruct (IH h1 Hpos) as (addrs & h' & Hall & Hlen & Hin & Hdis);
      [lia|lia|exact Hf1|].
    exists ((m_heap h + m_size h) :: addrs), h'.
    cbn [alloc_all]. rewrite Ha. cbn [stride_of]. unfold Old.stride.
    rewrite Z.mul_1_l, Hall.
    split; [reflexivity|]. split; [simpl; by rewrite Hlen|].
    rewrite Hb1, Hm1 in Hin. cbn [combine]. split.
    + constructor; [simpl; lia|].
      eapply Forall_impl; [exact Hin|]. simpl. intros r Hr. lia.
    + constructor; [|exact Hdis].
      eapply Forall_impl; [exact Hin|]. unfold disjoint. simpl. intros r Hr. lia.
Qed.

(** X20: In heap.cpp the property of C2 holds: from a fresh heap, a sequence of
    positive sizes whose sum is at most [HEAP_SIZE] is served by calls that
    all return, with regions pairwise disjoint and inside the arena. *)
Lemma old_alloc_all_disjoint_in_arena f sizes base top :
  Forall (fun sz => 0 < sz) sizes -> sum_sizes sizes <= HEAP_SIZE ->
  alloc_all_ok VOld f sizes (fresh_heap base top).
Proof.
  intros Hpos Hsum.
  destruct (old_alloc_all_from f sizes (fresh_heap base top) Hpos)
    as (addrs & h' & Hall & Hlen & Hin & Hdis); simpl; [lia|lia|reflexivity|].
  exists addrs, h'. split; [exact Hall|]. split; [exact Hlen|]. split; [|exact Hdis].
  eapply Forall_impl; [exact Hin|]. unfold in_arena. simpl. intros r Hr. lia.
Qed.

(** ** The general shape of the two allocation paths *)

(** The loop over [m_freed_chunks] stops at the first chunk that is not
    smaller than the request; when that chunk is larger, its descriptor is
    moved unchanged and the complement starts [size c] elements after
    [start c]. *)
Lemma reuse_loop_split stride sz h cp post : forall pre0 pre,
  m_freed_chunks h = pre0 ++ pre ++ cp :: post ->
  Forall (fun q => size (deref (objs h) q) < sz) pre ->
  sz < size (deref (objs h) cp) ->
  exists h',
    reuse_loop stride sz h (pre ++ cp :: post) (length pre0)
      = Some (start (deref (objs h) cp), h') /\
    m_allocated_chunks h' = m_allocated_chunks h ++ [cp] /\
    m_freed_chunks h' = pre0 ++ pre ++ post ++ [next_obj h] /\
    objs h' = <[next_obj h :=
                  mkChunk false
                    (start (deref (objs h) cp) + stride * size (deref (objs h) cp))
                    (wrap (size (deref (objs h) cp) - sz))]> (objs h) /\
    m_size h' = m_size h.
Proof.
  intros pre0 pre. revert pre0.
  induction pre as [|q pre IH]; intros pre0 Hfr Hsmall Hbig.
  - cbn [app reuse_loop].
    replace (sz <? size (deref (objs h) cp)) with true
      by (symmetry; apply Z.ltb_lt; lia).
    eexists. split; [reflexivity|].
    cbn. rewrite Hfr. cbn [app]. rewrite delete_middle, <- app_assoc.
    unfold new_chunk, ptr_add. auto.
  - apply Forall_cons in Hsmall as [Hq Hsmall]. cbn [app reuse_loop].
    replace (sz <? size (deref (objs h) q)) with false
      by (symmetry; apply Z.ltb_ge; lia).
    replace (size (deref (objs h) q) =? sz) with false
      by (symmetry; apply Z.eqb_neq; lia).
    destruct (IH (pre0 ++ [q])) as (h' & Hr & Ha & Hf & Ho & Hm);
      [by rewrite <- app_assoc|exact Hsmall|exact Hbig|].
    rewrite length_app, Nat.add_1_r in Hr.
    exists h'. split; [exact Hr|]. rewrite <- app_assoc in Hf. auto.
Qed.

(** The fresh chunk: when the loop over [m_freed_chunks] reuses nothing and
    the capacity check passes, [alloc] returns [m_heap + stride * m_size]
    and advances [m_size] by the request. *)
Lemma alloc_fresh v f sz h :
  0 < sz -> wrap (m_size h + sz) <= HEAP_SIZE ->
  reuse_loop (stride_of v) sz h (m_freed_chunks h) 0 = None ->
  exists h',
    alloc_of v f sz h = Returned (m_heap h + stride_of v * m_size h) h' /\
    m_size h' = wrap (m_size h + sz) /\
    m_allocated_chunks h' = m_allocated_chunks h ++ [next_obj h] /\
    objs h' = <[next_obj h :=
                  mkChunk false (m_heap h + stride_of v * m_size h) sz]> (objs h).
Proof.
  intros Hpos Hcap Hnone. rewrite alloc_of_unfold. unfold alloc_with.
  replace (0 <? sz) with true by (symmetry; apply Z.ltb_lt; lia).
  cbn [negb].
  replace (HEAP_SIZE <? wrap (m_size h + sz)) with false
    by (symmetry; apply Z.ltb_ge; lia).
  unfold alloc_tail. rewrite Hnone.
  destruct (bump_alloc_spec (stride_of v) sz h) as (Ha & Hm & Hal & Ho).
  destruct (bump_alloc (stride_of v) sz h) as [a h'] eqn:E. simpl in *.
  exists h'. subst a. auto.
Qed.

(** ** The bounds of [mark] are sufficient

    [mark_scan] stops because the range is exhausted, never because its
    counter is, and the recursion of [mark] is at most as deep as the work
    list is long: more fuel gives the same result. *)

Lemma slots_zero a e : slots a e = 0%nat -> e <= a.
Proof.
  unfold slots, WORD. intros H.
  destruct (Z_le_gt_dec e a) as [|Hgt]; [assumption|exfalso].
  assert (1 <= (e - a + (8 - 1)) / 8) by (apply Z.div_le_lower_bound; lia).
  lia.
Qed.

Lemma slots_step a e : a < e -> slots a e = S (slots (a + WORD) e).
Proof.
  unfold slots, WORD. intros H.
  replace (e - a + (8 - 1)) with ((e - (a + 8) + (8 - 1)) + 1 * 8) by lia.
  rewrite Z.div_add by lia.
  assert (0 <= (e - (a + 8) + (8 - 1)) / 8) by (apply Z.div_pos; lia).
  lia.
Qed.

Lemma mark_scan_fuel stride k e wl o : forall n m a,
  (slots a e <= n)%nat -> (slots a e <= m)%nat ->
  mark_scan stride k n a e wl o = mark_scan stride k m a e wl o.
Proof.
  induction n as [|n IH]; intros m a Hn Hm.
  - assert (e <= a) by (apply slots_zero; lia).
    destruct m as [|m]; cbn [mark_scan]; [reflexivity|].
    replace (a <? e) with false by (symmetry; apply Z.ltb_ge; lia).
    reflexivity.
  - cbn [mark_scan]. destruct (a <? e) eqn:E.
    + apply Z.ltb_lt in E. rewrite (slots_step a e E) in Hn, Hm.
      destruct m as [|m]; [lia|]. cbn [mark_scan].
      replace (a <? e) with true by (symmetry; apply Z.ltb_lt; lia).
      destruct (find_hit stride o a wl 0) as [[i p]|]; [reflexivity|].
      apply IH; lia.
    + destruct m as [|m]; cbn [mark_scan]; [reflexivity|]. by rewrite E.
Qed.

Lemma find_hit_bound stride o a rest : forall i0 i p,
  find_hit stride o a rest i0 = Some (i, p) ->
  (i0 <= i < i0 + length rest)%nat.
Proof.
  induction rest as [|q rest IH]; intros i0 i p; cbn [find_hit]; [discriminate|].
  destruct (hit stride o a q).
  - intros [= <- <-]. simpl. lia.
  - intros H. apply IH in H. simpl. lia.
Qed.

Lemma mark_scan_ext stride k k' e wl :
  (forall a' wl' o', (S (length wl') = length wl)%nat ->
     k a' wl' o' = k' a' wl' o') ->
  forall n a o,
    mark_scan stride k n a e wl o = mark_scan stride k' n a e wl o.
Proof.
  intros Hk. induction n as [|n IH]; intros a o; cbn [mark_scan]; [reflexivity|].
  destruct (a <? e); [|reflexivity].
  destruct (find_hit stride o a wl 0) as [[i p]|] eqn:E; [|apply IH].
  apply Hk. apply find_hit_bound in E.
  rewrite length_delete by (apply lookup_lt_is_Some; lia). lia.
Qed.

Lemma mark_rec_fuel stride e : forall d d' a wl o,
  (length wl < d)%nat -> (length wl < d')%nat ->
  mark_rec stride d a e wl o = mark_rec stride d' a e wl o.
Proof.
  induction d as [|d IH]; intros d' a wl o Hd Hd'; [lia|].
  destruct d' as [|d']; [lia|]. cbn [mark_rec].
  apply mark_scan_ext. intros a' wl' o' Hlen. apply IH; lia.
Qed.

(** [mark] is the least fixed point of its defining equation: unfolding the
    recursive call once more changes nothing. *)
Lemma mark_unfold stride a e wl o :
  mark stride a e wl o =
  mark_scan stride (fun a' wl' o' => mark stride a' e wl' o')
            (slots a e) a e wl o.
Proof.
  unfold mark at 1. cbn [mark_rec]. apply mark_scan_ext.
  intros a' wl' o' Hlen. unfold mark. apply mark_rec_fuel; lia.
Qed.

(** * Further properties of the code *)

(** ** The debug overload of [collect] in lib/heap.cpp *)

Lemma with_objs_same h : with_objs h (objs h) = h.
Proof. by destruct h. Qed.

(** The test [flags & opt] on a one-bit option reads that bit of the mask. *)
Lemma flag_set_testbit x n : 0 <= n -> Lib.flag_set x (2 ^ n) = Z.testbit x n.
Proof.
  intros Hn. unfold Lib.flag_set. destruct (Z.testbit x n) eqn:E.
  - apply negb_true_iff, Z.eqb_neq. intros Hz.
    assert (H : Z.testbit (Z.land x (2 ^ n)) n = true)
      by (rewrite Z.land_spec, E, Z.pow2_bits_true; [reflexivity|lia]).
    rewrite Hz, Z.bits_0 in H. discriminate.
  - apply negb_false_iff, Z.eqb_eq. apply Z.bits_inj'. intros m Hm.
    rewrite Z.land_spec, Z.bits_0.
    destruct (Z.eq_dec n m) as [<-|Hne].
    + rewrite E. reflexivity.
    + rewrite (Z.pow2_bits_false n m) by lia. apply andb_false_r.
Qed.

Lemma collect_flags_bits frame flags h :
  Lib.collect_flags frame flags h =
  let h1 := if Z.testbit flags 0
            then with_objs h (mark Lib.stride frame 0 (m_allocated_chunks h) (objs h))
            else h in
  let h2 := if Z.testbit flags 1 then Lib.sweep h1 else h1 in
  if Z.testbit flags 3 then release h2 else h2.
Proof.
  unfold Lib.collect_flags, Lib.stack_bounds.
  change Lib.MARK with (2 ^ 0). change Lib.SWEEP with (2 ^ 1).
  change Lib.FREE with (2 ^ 3).
  rewrite !flag_set_testbit by lia. reflexivity.
Qed.

(** X1: A mask without the bits [MARK], [SWEEP] and [FREE] selects no phase:
    [collect(flags)] returns the heap as it was. [MARK_SWEEP] is such a
    mask. *)
Theorem collect_flags_without_phase_bits frame flags h :
  Z.land flags Lib.MARK = 0 -> Z.land flags Lib.SWEEP = 0 ->
  Z.land flags Lib.FREE = 0 ->
  Lib.collect_flags frame flags h = h.
Proof.
  intros Hm Hs Hf. unfold Lib.collect_flags, Lib.stack_bounds, Lib.flag_set.
  rewrite Hm, Hs, Hf. reflexivity.
Qed.

Lemma collect_flags_without_phase_bits_witness :
  Lib.collect_flags 1000 Lib.MARK_SWEEP heap_with_root = heap_with_root.
Proof.
  apply (collect_flags_without_phase_bits 1000 Lib.MARK_SWEEP heap_with_root);
    reflexivity.
Defined.

(** X2: [collect(flags)] looks at the bits 0, 1 and 3 of the mask only. *)
Theorem collect_flags_depends_on_phase_bits frame flags flags' h :
  Z.testbit flags 0 = Z.testbit flags' 0 ->
  Z.testbit flags 1 = Z.testbit flags' 1 ->
  Z.testbit flags 3 = Z.testbit flags' 3 ->
  Lib.collect_flags frame flags h = Lib.collect_flags frame flags' h.
Proof.
  intros H0 H1 H3. rewrite !collect_flags_bits, H0, H1, H3. reflexivity.
Qed.

Lemma collect_flags_depends_on_phase_bits_witness :
  Lib.collect_flags 1000 (Lib.SWEEP + Lib.MARK_SWEEP) heap_with_root
  = Lib.collect_flags 1000 Lib.SWEEP heap_with_root.
Proof.
  apply (collect_flags_depends_on_phase_bits 1000 (Lib.SWEEP + Lib.MARK_SWEEP)
           Lib.SWEEP heap_with_root); reflexivity.
Defined.

(** X3: [collect()] does what [collect(flags)] does for every mask that has the
    bits [MARK], [SWEEP] and [FREE], [COLLECT_ALL] among them (the ghost
    count of calls apart). *)
Theorem collect_is_collect_all frame flags h :
  Z.testbit flags 0 = true -> Z.testbit flags 1 = true ->
  Z.testbit flags 3 = true ->
  Lib.collect_flags frame flags (count_collect h) = Lib.collect frame h.
Proof.
  intros H0 H1 H3. rewrite collect_flags_bits, H0, H1, H3. reflexivity.
Qed.

Lemma collect_is_collect_all_witness :
  Lib.collect_flags 1000 Lib.COLLECT_ALL (count_collect heap_with_root)
  = Lib.collect 1000 heap_with_root.
Proof.
  apply (collect_is_collect_all 1000 Lib.COLLECT_ALL heap_with_root);
    reflexivity.
Defined.

(** X4: In lib/heap.cpp the mark phase has no effect: [collect(MARK)] returns the
    heap as it was, for every frame address. *)
Theorem collect_flags_mark_only_is_identity frame h :
  0 <= frame -> Lib.collect_flags frame Lib.MARK h = h.
Proof.
  intros Hf. unfold Lib.collect_flags, Lib.stack_bounds.
  change (Lib.flag_set Lib.MARK Lib.MARK) with true.
  change (Lib.flag_set Lib.MARK Lib.SWEEP) with false.
  change (Lib.flag_set Lib.MARK Lib.FREE) with false.
  rewrite mark_null_end by exact Hf. apply with_objs_same.
Qed.

Lemma collect_flags_mark_only_is_identity_witness :
  Lib.collect_flags 1000 Lib.MARK heap_with_root = heap_with_root.
Proof.
  apply (collect_flags_mark_only_is_identity 1000 heap_with_root). lia.
Defined.

(** ** [alloc]: first fit over the freed chunks *)

Lemma reuse_loop_exact stride sz h cp post : forall pre0 pre,
  m_freed_chunks h = pre0 ++ pre ++ cp :: post ->
  Forall (fun q => size (deref (objs h) q) < sz) pre ->
  size (deref (objs h) cp) = sz ->
  reuse_loop stride sz h (pre ++ cp :: post) (length pre0)
  = Some (start (deref (objs h) cp),
          with_lists h (m_allocated_chunks h ++ [cp]) (pre0 ++ pre ++ post)).
Proof.
  intros pre0 pre. revert pre0.
  induction pre as [|q pre IH]; intros pre0 Hfr Hsmall Heq.
  - cbn [app reuse_loop].
    replace (sz <? size (deref (objs h) cp)) with false
      by (symmetry; apply Z.ltb_ge; lia).
    replace (size (deref (objs h) cp) =? sz) with true
      by (symmetry; apply Z.eqb_eq; lia).
    rewrite Hfr. cbn [app]. by rewrite delete_middle.
  - apply Forall_cons in Hsmall as [Hq Hsmall]. cbn [app reuse_loop].
    replace (sz <? size (deref (objs h) q)) with false
      by (symmetry; apply Z.ltb_ge; lia).
    replace (size (deref (objs h) q) =? sz) with false
      by (symmetry; apply Z.eqb_neq; lia).
    specialize (IH (pre0 ++ [q])).
    rewrite length_app, Nat.add_1_r, <- !app_assoc in IH.
    apply IH; assumption.
Qed.

Lemma reuse_loop_none stride sz h rest : forall i,
  Forall (fun q => size (deref (objs h) q) < sz) rest ->
  reuse_loop stride sz h rest i = None.
Proof.
  induction rest as [|q rest IH]; intros i Hsmall; [reflexivity|].
  apply Forall_cons in Hsmall as [Hq Hsmall]. cbn [reuse_loop].
  replace (sz <? size (deref (objs h) q)) with false
    by (symmetry; apply Z.ltb_ge; lia).
  replace (size (deref (objs h) q) =? sz) with false
    by (symmetry; apply Z.eqb_neq; lia).
  by apply IH.
Qed.

(** The part of [alloc] after a capacity check that passes. *)
Lemma alloc_within_capacity v f sz h :
  0 < sz -> wrap (m_size h + sz) <= HEAP_SIZE ->
  alloc_of v f sz h =
  let '(a, h2) := alloc_tail (stride_of v) sz h in Returned a h2.
Proof.
  intros Hpos Hcap. rewrite alloc_of_unfold. unfold alloc_with.
  replace (0 <? sz) with true by (symmetry; apply Z.ltb_lt; lia).
  cbn [negb].
  replace (HEAP_SIZE <? wrap (m_size h + sz)) with false
    by (symmetry; apply Z.ltb_ge; lia).
  reflexivity.
Qed.

(** X5: When the first freed chunk that is not smaller than the request has
    exactly the requested size, [alloc] returns its start and moves its
    descriptor, unchanged, from [m_freed_chunks] to the end of
    [m_allocated_chunks]; nothing else changes. *)
Theorem alloc_reuses_first_exact_fit v f sz h pre cp post :
  0 < sz -> wrap (m_size h + sz) <= HEAP_SIZE ->
  m_freed_chunks h = pre ++ cp :: post ->
  Forall (fun q => size (deref (objs h) q) < sz) pre ->
  size (deref (objs h) cp) = sz ->
  alloc_of v f sz h
  = Returned (start (deref (objs h) cp))
             (with_lists h (m_allocated_chunks h ++ [cp]) (pre ++ post)).
Proof.
  intros Hpos Hcap Hfr Hsmall Heq.
  rewrite alloc_within_capacity by assumption. unfold alloc_tail.
  pose proof (reuse_loop_exact (stride_of v) sz h cp post [] pre Hfr Hsmall Heq)
    as Hr.
  cbn [length app] in Hr. rewrite <- Hfr in Hr. rewrite Hr. reflexivity.
Qed.

Lemma alloc_reuses_first_exact_fit_witness :
  alloc_of VLib (mkFrames 1000 2000) 64 heap_with_two_freed
  = Returned 4112 (with_lists heap_with_two_freed [1%nat] [0%nat]).
Proof.
  apply (alloc_reuses_first_exact_fit VLib (mkFrames 1000 2000) 64
           heap_with_two_freed [0%nat] 1%nat []).
  - lia.
  - vm_compute. discriminate.
  - reflexivity.
  - repeat constructor.
  - reflexivity.
Defined.

(** X6: Freed chunks smaller than the request are passed over: when all of them
    are, [alloc] takes a fresh chunk at the bump offset and leaves
    [m_freed_chunks] as it was. *)
Theorem alloc_skips_smaller_freed_chunks v f sz h :
  0 < sz -> wrap (m_size h + sz) <= HEAP_SIZE ->
  Forall (fun q => size (deref (objs h) q) < sz) (m_freed_chunks h) ->
  exists h',
    alloc_of v f sz h = Returned (m_heap h + stride_of v * m_size h) h' /\
    m_freed_chunks h' = m_freed_chunks h /\
    m_allocated_chunks h' = m_allocated_chunks h ++ [next_obj h] /\
    m_size h' = wrap (m_size h + sz).
Proof.
  intros Hpos Hcap Hsmall.
  rewrite alloc_within_capacity by assumption. unfold alloc_tail.
  rewrite reuse_loop_none by exact Hsmall.
  unfold bump_alloc, ptr_add. cbn. eexists. split; [reflexivity|]. cbn. auto.
Qed.

Lemma alloc_skips_smaller_freed_chunks_witness :
  returned_addr (alloc_of VOld (mkFrames 1000 2000) 100 heap_with_two_freed)
  = Some (4096 + 80).
Proof.
  destruct (alloc_skips_smaller_freed_chunks VOld (mkFrames 1000 2000) 100
              heap_with_two_freed) as (h' & Hr & _).
  - lia.
  - vm_compute. discriminate.
  - repeat constructor.
  - rewrite Hr. reflexivity.
Defined.

(** ** [alloc]: the capacity check in [size_t] arithmetic *)

Lemma wrap_once z : 2 ^ 64 <= z < 2 * 2 ^ 64 -> wrap z = z - 2 ^ 64.
Proof.
  intros Hz. unfold wrap.
  replace z with (z - 2 ^ 64 + 1 * 2 ^ 64) at 1 by lia.
  rewrite Z.mod_add by lia. apply Z.mod_small. lia.
Qed.

(** X7: A request so large that [m_size + size] overflows [size_t] passes the
    capacity check: [alloc] returns without calling [collect()], hands out
    the address at the bump offset, and the bump offset moves backwards. *)
Theorem alloc_capacity_check_wraps v f sz h :
  0 <= m_size h < 2 ^ 64 -> 0 < sz < 2 ^ 64 ->
  2 ^ 64 <= m_size h + sz -> m_size h + sz - 2 ^ 64 <= HEAP_SIZE ->
  Forall (fun q => size (deref (objs h) q) < sz) (m_freed_chunks h) ->
  exists h',
    alloc_of v f sz h = Returned (m_heap h + stride_of v * m_size h) h' /\
    m_size h' = m_size h + sz - 2 ^ 64 /\ m_size h' < m_size h /\
    collect_calls h' = collect_calls h.
Proof.
  intros Hm Hsz Hover Hcap Hsmall.
  assert (Hw : wrap (m_size h + sz) = m_size h + sz - 2 ^ 64)
    by (apply wrap_once; lia).
  rewrite alloc_within_capacity by lia. unfold alloc_tail.
  rewrite reuse_loop_none by exact Hsmall.
  unfold bump_alloc, ptr_add. cbn. eexists. split; [reflexivity|]. cbn.
  rewrite Hw. split; [reflexivity|]. split; [lia|reflexivity].
Qed.

Lemma alloc_capacity_check_wraps_witness :
  exists h',
    alloc_of VOld (mkFrames 1000 2000) (2 ^ 64 - 1) heap_with_root
      = Returned (4096 + 8) h' /\ m_size h' = 7.
Proof.
  destruct (alloc_capacity_check_wraps VOld (mkFrames 1000 2000) (2 ^ 64 - 1)
              heap_with_root) as (h' & Hr & Hm & _).
  - vm_compute. split; [discriminate|reflexivity].
  - vm_compute. split; reflexivity.
  - vm_compute. discriminate.
  - vm_compute. discriminate.
  - constructor.
  - exists h'. split; [exact Hr|exact Hm].
Defined.

(** ** [alloc]: what a call that returns has done *)

Lemma deref_insert_eq o p c : deref (<[p := c]> o) p = c.
Proof. unfold deref. by rewrite lookup_insert_eq. Qed.

Lemma deref_insert_ne o p q c : p <> q -> deref (<[p := c]> o) q = deref o q.
Proof. intros H. unfold deref. by rewrite lookup_insert_ne. Qed.

Lemma reuse_loop_post stride sz h rest : forall i a h',
  reuse_loop stride sz h rest i = Some (a, h') ->
  ~ In (next_obj h) rest ->
  exists cp,
    In cp rest /\ a = start (deref (objs h) cp) /\
    m_allocated_chunks h' = m_allocated_chunks h ++ [cp] /\
    deref (objs h') cp = deref (objs h) cp /\
    sz <= size (deref (objs h) cp).
Proof.
  induction rest as [|q rest IH]; intros i a h'; cbn [reuse_loop]; [discriminate|].
  intros Hr Hfresh.
  destruct (sz <? size (deref (objs h) q)) eqn:E1.
  - injection Hr as <- <-. apply Z.ltb_lt in E1. exists q. cbn.
    split; [by left|]. split; [reflexivity|]. split; [reflexivity|].
    split; [|lia]. apply deref_insert_ne. intros Heq. apply Hfresh. by left.
  - destruct (size (deref (objs h) q) =? sz) eqn:E2.
    + injection Hr as <- <-. apply Z.eqb_eq in E2. exists q. cbn.
      split; [by left|]. split; [reflexivity|]. split; [reflexivity|].
      split; [reflexivity|lia].
    + destruct (IH _ _ _ Hr) as (cp & Hin & Hrest).
      { intros Hin. apply Hfresh. by right. }
      exists cp. split; [by right|exact Hrest].
Qed.

(** X8: A call of [alloc] that returns has not called [collect()]: the capacity
    check passed on entry. It has left [m_heap] alone and appended exactly
    one descriptor to [m_allocated_chunks]; the address returned is the
    start of that descriptor, whose size is at least the request. *)
Theorem alloc_returns_start_of_appended_chunk v f sz h a h' :
  ~ In (next_obj h) (m_freed_chunks h) ->
  alloc_of v f sz h = Returned a h' ->
  0 < sz /\ wrap (m_size h + sz) <= HEAP_SIZE /\
  collect_calls h' = collect_calls h /\ m_heap h' = m_heap h /\
  exists p,
    m_allocated_chunks h' = m_allocated_chunks h ++ [p] /\
    start (deref (objs h') p) = a /\ sz <= size (deref (objs h') p).
Proof.
  intros Hfresh. rewrite alloc_of_unfold. unfold alloc_with.
  destruct (0 <? sz) eqn:Epos; cbn [negb]; [|discriminate].
  apply Z.ltb_lt in Epos.
  destruct (HEAP_SIZE <? wrap (m_size h + sz)) eqn:Ecap.
  - destruct (collect_of_fields v f h) as (-> & _ & _).
    apply Z.ltb_lt in Ecap.
    replace (wrap (m_size h + sz) <=? HEAP_SIZE) with false
      by (symmetry; apply Z.leb_gt; lia).
    discriminate.
  - apply Z.ltb_ge in Ecap. unfold alloc_tail.
    destruct (reuse_loop (stride_of v) sz h (m_freed_chunks h) 0)
      as [[a0 h0]|] eqn:Er.
    + intros [= <- <-].
      destruct (reuse_loop_frame _ _ _ _ _ _ _ Er) as (_ & Hc & Hb).
      destruct (reuse_loop_post _ _ _ _ _ _ _ Er Hfresh)
        as (cp & _ & Ha & Hal & Hd & Hsz).
      split; [lia|]. split; [lia|]. split; [exact Hc|]. split; [exact Hb|].
      exists cp. rewrite Hd. split; [exact Hal|]. split; [by rewrite Ha|exact Hsz].
    + unfold bump_alloc, ptr_add. cbn. intros [= <- <-]. cbn.
      split; [lia|]. split; [lia|]. split; [reflexivity|]. split; [reflexivity|].
      exists (next_obj h). rewrite deref_insert_eq. cbn.
      split; [reflexivity|]. split; [reflexivity|lia].
Qed.

Lemma alloc_returns_start_of_appended_chunk_witness :
  0 < 64 /\ wrap (m_size heap_with_two_freed + 64) <= HEAP_SIZE /\
  collect_calls (with_lists heap_with_two_freed [1%nat] [0%nat])
    = collect_calls heap_with_two_freed /\
  m_heap (with_lists heap_with_two_freed [1%nat] [0%nat])
    = m_heap heap_with_two_freed /\
  exists p,
    m_allocated_chunks (with_lists heap_with_two_freed [1%nat] [0%nat])
      = m_allocated_chunks heap_with_two_freed ++ [p] /\
    start (deref (objs (with_lists heap_with_two_freed [1%nat] [0%nat])) p)
      = 4112 /\
    64 <= size (deref (objs (with_lists heap_with_two_freed [1%nat] [0%nat])) p).
Proof.
  apply (alloc_returns_start_of_appended_chunk VLib (mkFrames 1000 2000) 64
           heap_with_two_freed 4112
           (with_lists heap_with_two_freed [1%nat] [0%nat])).
  - vm_compute. intros [H|[H|[]]]; discriminate.
  - vm_compute. reflexivity.
Defined.

(** ** [alloc] after [collect()] *)

Lemma collect_of_m_heap v f h : m_heap (collect_of v f h) = m_heap h.
Proof.
  destruct v; unfold collect_of.
  - unfold Lib.collect, Lib.stack_bounds.
    match goal with
    | |- context [release ?x] =>
        destruct (release_fields x) as (_ & _ & _ & _ & ->)
    end.
    match goal with
    | |- context [Lib.sweep ?x] =>
        destruct (lib_sweep_fields x) as (_ & _ & _ & ->)
    end.
    reflexivity.
  - reflexivity.
Qed.

(** X9: Nothing [collect()] frees is reused: in both versions the [alloc] that
    follows it, when there is room, takes a fresh chunk at the bump offset
    the heap had before the collection. *)
Theorem alloc_after_collect_takes_fresh_chunk v f sz h :
  0 < sz -> 0 <= m_size h -> m_size h + sz <= HEAP_SIZE ->
  exists h',
    alloc_of v f sz (collect_of v f h)
      = Returned (m_heap h + stride_of v * m_size h) h' /\
    m_size h' = m_size h + sz.
Proof.
  intros Hpos Hm Hcap.
  destruct (collect_of_fields v f h) as (Hsize & Hfreed & _).
  destruct (alloc_bump v f sz (collect_of v f h)) as (h' & Hr & Hm' & _);
    [lia|lia|lia|exact Hfreed|].
  rewrite collect_of_m_heap, Hsize in Hr. rewrite Hsize in Hm'.
  exists h'. auto.
Qed.

Lemma alloc_after_collect_takes_fresh_chunk_witness :
  exists h',
    alloc_of VLib (mkFrames 1000 2000) 64
             (collect_of VLib (mkFrames 1000 2000) heap_with_two_freed)
      = Returned (4096 + 8 * 80) h' /\ m_size h' = 80 + 64.
Proof.
  apply (alloc_after_collect_takes_fresh_chunk VLib (mkFrames 1000 2000) 64
           heap_with_two_freed); vm_compute; discriminate || reflexivity.
Defined.

(** ** [sweep]: what it keeps *)

Lemma filter_partition_perm (g : nat -> bool) l :
  Permutation l (List.filter g l ++ List.filter (fun p => negb (g p)) l).
Proof.
  induction l as [|p l IH]; simpl; [constructor|].
  destruct (g p); simpl.
  - by constructor.
  - rewrite <- Permutation_middle. by constructor.
Qed.

(** X10: [sweep] loses and duplicates nothing: the descriptors listed in
    [m_allocated_chunks] and [m_freed_chunks] together are the same before
    and after, and so is the store of descriptors. *)
Theorem sweep_keeps_every_descriptor h :
  Permutation (m_allocated_chunks h ++ m_freed_chunks h)
              (m_allocated_chunks (Lib.sweep h) ++ m_freed_chunks (Lib.sweep h)) /\
  objs (Lib.sweep h) = objs h /\ m_size (Lib.sweep h) = m_size h.
Proof.
  unfold Lib.sweep. rewrite sweep_loop_spec. cbn.
  split; [|auto].
  rewrite (filter_partition_perm (fun p => marked (deref (objs h) p))
             (m_allocated_chunks h)) at 1.
  rewrite <- !app_assoc. apply Permutation_app_head, Permutation_app_comm.
Qed.

Lemma filter_idem (g : nat -> bool) l :
  List.filter g (List.filter g l) = List.filter g l.
Proof.
  induction l as [|p l IH]; simpl; [reflexivity|].
  destruct (g p) eqn:E; simpl; [rewrite E|]; by rewrite IH.
Qed.

Lemma filter_none (g : nat -> bool) l :
  List.filter (fun p => negb (g p)) (List.filter g l) = [].
Proof.
  induction l as [|p l IH]; simpl; [reflexivity|].
  destruct (g p) eqn:E; simpl; [rewrite E|]; by rewrite IH.
Qed.

(** X11: A second [sweep] right after the first changes nothing. *)
Theorem sweep_idempotent h : Lib.sweep (Lib.sweep h) = Lib.sweep h.
Proof.
  unfold Lib.sweep. rewrite (sweep_loop_spec (objs h)).
  cbn [with_lists objs m_allocated_chunks m_freed_chunks app].
  rewrite sweep_loop_spec. cbn [app].
  rewrite filter_idem, filter_none, app_nil_r. reflexivity.
Qed.

(** ** [mark]: what it changes *)

Lemma in_delete (l : list nat) : forall i q, In q (delete i l) -> In q l.
Proof.
  induction l as [|p l IH]; intros i q; [by destruct i|].
  destruct i as [|i]; simpl.
  - intros H. by right.
  - intros [->|H]; [by left|]. right. by apply (IH i).
Qed.

Lemma find_hit_spec stride o a rest : forall i0 i p,
  find_hit stride o a rest i0 = Some (i, p) ->
  In p rest /\ hit stride o a p = true.
Proof.
  induction rest as [|q rest IH]; intros i0 i p; cbn [find_hit]; [discriminate|].
  destruct (hit stride o a q) eqn:E.
  - intros [= <- <-]. split; [by left|exact E].
  - intros H. apply IH in H as [Hin Hh]. split; [by right|exact Hh].
Qed.

Lemma marks_only_refl wl o : marks_only wl o o.
Proof. intros q. by left. Qed.

Lemma marks_only_step wl wl' p o o' :
  In p wl -> (forall q, In q wl' -> In q wl) ->
  marks_only wl' (set_marked p o) o' -> marks_only wl o o'.
Proof.
  intros Hp Hsub H q. unfold set_marked in H.
  destruct (decide (p = q)) as [<-|Hne].
  - right. split; [exact Hp|].
    destruct (H p) as [->|[_ ->]]; rewrite lookup_alter_eq;
      destruct (o !! p); reflexivity.
  - destruct (H q) as [Hq|[Hin Hq]]; rewrite lookup_alter_ne in Hq by done.
    + by left.
    + right. split; [by apply Hsub|exact Hq].
Qed.

Lemma mark_scan_marks_only stride k e :
  (forall a wl o, marks_only wl o (k a wl o)) ->
  forall n a wl o, marks_only wl o (mark_scan stride k n a e wl o).
Proof.
  intros Hk. induction n as [|n IH]; intros a wl o; cbn [mark_scan].
  - apply marks_only_refl.
  - destruct (a <? e); [|apply marks_only_refl].
    destruct (find_hit stride o a wl 0) as [[i p]|] eqn:E; [|apply IH].
    apply find_hit_spec in E as [Hin _].
    eapply marks_only_step; [exact Hin| |apply Hk].
    intros q. apply in_delete.
Qed.

Lemma mark_rec_marks_only stride e d :
  forall a wl o, marks_only wl o (mark_rec stride d a e wl o).
Proof.
  induction d as [|d IH]; intros a wl o; cbn [mark_rec].
  - apply marks_only_refl.
  - apply mark_scan_marks_only. intros a' wl' o'. apply IH.
Qed.

(** X12: [mark] touches only descriptors of its work list, and of those only the
    mark bit, which it never clears: descriptors outside the work list are
    not changed, no descriptor appears or disappears, starts and sizes stay,
    and a chunk marked before is marked after. *)
Theorem mark_sets_only_mark_bits_of_work_list stride a e wl o q :
  (~ In q wl -> mark stride a e wl o !! q = o !! q) /\
  (is_Some (mark stride a e wl o !! q) <-> is_Some (o !! q)) /\
  start (deref (mark stride a e wl o) q) = start (deref o q) /\
  size (deref (mark stride a e wl o) q) = size (deref o q) /\
  (marked (deref o q) = true -> marked (deref (mark stride a e wl o) q) = true).
Proof.
  pose proof (mark_rec_marks_only stride e (S (length wl)) a wl o q) as H.
  fold (mark stride a e wl o) in H.
  destruct (mark_same_extents stride a e wl o q) as (Hs & Hst & Hsz).
  split; [|split; [exact Hs|split; [exact Hst|split; [exact Hsz|]]]].
  - intros Hq. destruct H as [H|[Hin _]]; [exact H|contradiction].
  - unfold deref. destruct H as [->|[_ ->]]; [auto|].
    destruct (o !! q); simpl; [reflexivity|discriminate].
Qed.

Lemma mark_sets_only_mark_bits_of_work_list_witness :
  mark Old.stride 1000 2000 [0%nat] (objs heap_with_gap) !! 1%nat
  = objs heap_with_gap !! 1%nat.
Proof.
  apply (mark_sets_only_mark_bits_of_work_list Old.stride 1000 2000 [0%nat]
           (objs heap_with_gap) 1%nat).
  intros [H|[]]. discriminate.
Defined.

Lemma marks_within_refl stride a e o : marks_within stride a e o o.
Proof. intros q H1 H2. congruence. Qed.

Lemma marks_within_weaken stride a a' e o o' :
  a <= a' -> marks_within stride a' e o o' -> marks_within stride a e o o'.
Proof.
  intros Ha H q H1 H2. destruct (H q H1 H2) as (x & Hx & Hext).
  exists x. split; [lia|exact Hext].
Qed.

Lemma set_marked_other p o q : p <> q -> deref (set_marked p o) q = deref o q.
Proof. intros H. apply deref_ext. unfold set_marked. by rewrite lookup_alter_ne. Qed.

Lemma mark_scan_marks_within stride k e :
  (forall a wl o, marks_within stride a e o (k a wl o)) ->
  forall n a wl o, marks_within stride a e o (mark_scan stride k n a e wl o).
Proof.
  intros Hk. induction n as [|n IH]; intros a wl o; cbn [mark_scan].
  - apply marks_within_refl.
  - destruct (a <? e) eqn:Elt; [|apply marks_within_refl].
    apply Z.ltb_lt in Elt.
    destruct (find_hit stride o a wl 0) as [[i p]|] eqn:E.
    + apply find_hit_spec in E as [_ Hhit].
      unfold hit in Hhit. apply andb_true_iff in Hhit as [Hhit _].
      apply andb_true_iff in Hhit as [Hlo Hhi].
      apply Z.leb_le in Hlo. apply Z.ltb_lt in Hhi.
      intros q Hq0 Hq1. destruct (decide (p = q)) as [<-|Hne].
      * exists a. split; [lia|]. split; [exact Hlo|exact Hhi].
      * rewrite <- (set_marked_other p o q Hne) in Hq0.
        destruct (Hk _ _ _ q Hq0 Hq1) as (x & Hx & Hext).
        rewrite (set_marked_other p o q Hne) in Hext.
        exists x. split; [lia|exact Hext].
    + eapply marks_within_weaken; [|apply IH]. unfold WORD. lia.
Qed.

Lemma mark_rec_marks_within stride e d :
  forall a wl o, marks_within stride a e o (mark_rec stride d a e wl o).
Proof.
  induction d as [|d IH]; intros a wl o; cbn [mark_rec].
  - apply marks_within_refl.
  - apply mark_scan_marks_within. intros a' wl' o'. apply IH.
Qed.

(** X13: [mark] marks a chunk only if the chunk is in the work list and some
    address of the scanned range [a, e) lies in its extent. *)
Theorem mark_marks_only_chunks_in_range stride a e wl o q :
  marked (deref o q) = false ->
  marked (deref (mark stride a e wl o) q) = true ->
  In q wl /\
  exists x, a <= x < e /\
            start (deref o q) <= x
              < start (deref o q) + stride * size (deref o q).
Proof.
  intros H0 H1. split.
  - destruct (mark_rec_marks_only stride e (S (length wl)) a wl o q) as [H|[H _]];
      [|exact H].
    fold (mark stride a e wl o) in H.
    rewrite (deref_ext _ _ _ H) in H1. congruence.
  - apply (mark_rec_marks_within stride e (S (length wl)) a wl o q H0 H1).
Qed.

Lemma mark_marks_only_chunks_in_range_witness :
  In 0%nat [0%nat] /\
  exists x, 1000 <= x < 2000 /\ 1008 <= x < 1008 + Old.stride * 16.
Proof.
  apply (mark_marks_only_chunks_in_range Old.stride 1000 2000 [0%nat]
           (objs heap_in_scanned_range) 0%nat); vm_compute; reflexivity.
Defined.

(** ** [collect()] of lib/heap.cpp: what survives *)

Lemma release_loop_in l : forall o q, In q l -> release_loop l o !! q = None.
Proof.
  induction l as [|p l IH]; intros o q; simpl; [tauto|].
  destruct (in_dec Nat.eq_dec q l) as [Hin|Hnin].
  - intros _. by apply IH.
  - intros [->|H]; [|contradiction].
    rewrite release_loop_other by exact Hnin. apply lookup_delete_eq.
Qed.

Lemma lib_collect_unfold frame h :
  0 <= frame ->
  Lib.collect frame h = release (Lib.sweep (count_collect h)).
Proof.
  intros Hf. unfold Lib.collect, Lib.stack_bounds.
  rewrite mark_null_end by exact Hf.
  by rewrite (with_objs_same (count_collect h)).
Qed.

(** X14: [collect()] of lib/heap.cpp keeps in [m_allocated_chunks] exactly the
    chunks that carried the mark bit when it was called, whatever the stack
    holds, and destroys the descriptor of every other listed chunk: of the
    unmarked allocated ones and of the freed ones. The descriptors it keeps
    are unchanged. *)
Theorem lib_collect_destroys_unmarked_chunks frame h p :
  0 <= frame ->
  m_allocated_chunks (Lib.collect frame h)
    = List.filter (fun q => marked (deref (objs h) q)) (m_allocated_chunks h) /\
  (In p (m_allocated_chunks h) -> marked (deref (objs h) p) = false ->
   objs (Lib.collect frame h) !! p = None) /\
  (In p (m_freed_chunks h) -> objs (Lib.collect frame h) !! p = None) /\
  (~ In p (m_freed_chunks h) ->
   (In p (m_allocated_chunks h) -> marked (deref (objs h) p) = true) ->
   objs (Lib.collect frame h) !! p = objs h !! p).
Proof.
  intros Hf. rewrite lib_collect_unfold by exact Hf.
  unfold release, Lib.sweep. rewrite sweep_loop_spec.
  cbn [with_lists with_objs count_collect objs m_allocated_chunks
       m_freed_chunks app].
  split; [reflexivity|]. split; [|split].
  - intros Hin Hm. apply release_loop_in. rewrite <- in_rev.
    apply in_or_app. right. apply filter_In. rewrite Hm. auto.
  - intros Hin. apply release_loop_in. rewrite <- in_rev.
    apply in_or_app. by left.
  - intros Hnf Hal. apply release_loop_other. rewrite <- in_rev.
    intros Hin. apply in_app_or in Hin as [Hin|Hin]; [contradiction|].
    apply filter_In in Hin as [Hin Hm]. rewrite (Hal Hin) in Hm. discriminate.
Qed.

Lemma lib_collect_destroys_unmarked_chunks_witness :
  objs (Lib.collect 1000 heap_with_root) !! 0%nat = None.
Proof.
  destruct (lib_collect_destroys_unmarked_chunks 1000 heap_with_root 0%nat)
    as (_ & H & _); [lia|].
  apply H; [left; reflexivity|reflexivity].
Defined.

Lemma reuse_loop_objs stride sz h rest : forall i a h',
  reuse_loop stride sz h rest i = Some (a, h') ->
  objs h' = objs h \/
  exists c, marked c = false /\ objs h' = <[next_obj h := c]> (objs h).
Proof.
  induction rest as [|q rest IH]; intros i a h'; cbn [reuse_loop]; [discriminate|].
  destruct (sz <? size (deref (objs h) q)).
  - intros [= <- <-]. right. eexists. split; [|reflexivity]. reflexivity.
  - destruct (size (deref (objs h) q) =? sz).
    + intros [= <- <-]. by left.
    + apply IH.
Qed.

Lemma all_unmarked_insert o p c :
  marked c = false -> all_unmarked o -> all_unmarked (<[p := c]> o).
Proof.
  intros Hc Ho q c'. destruct (decide (p = q)) as [<-|Hne].
  - rewrite lookup_insert_eq. by intros [= <-].
  - rewrite lookup_insert_ne by done. apply Ho.
Qed.

Lemma alloc_keeps_all_unmarked v f sz h a h' :
  alloc_of v f sz h = Returned a h' ->
  all_unmarked (objs h) -> all_unmarked (objs h').
Proof.
  rewrite alloc_of_unfold. unfold alloc_with.
  destruct (0 <? sz); cbn [negb]; [|discriminate].
  destruct (HEAP_SIZE <? wrap (m_size h + sz)) eqn:Ecap.
  - destruct (collect_of_fields v f h) as (-> & _ & _).
    apply Z.ltb_lt in Ecap.
    replace (wrap (m_size h + sz) <=? HEAP_SIZE) with false
      by (symmetry; apply Z.leb_gt; lia).
    discriminate.
  - unfold alloc_tail.
    destruct (reuse_loop (stride_of v) sz h (m_freed_chunks h) 0)
      as [[a0 h0]|] eqn:Er.
    + intros [= <- <-] Hu.
      destruct (reuse_loop_objs _ _ _ _ _ _ _ Er) as [->|(c & Hc & ->)];
        [exact Hu|by apply all_unmarked_insert].
    + unfold bump_alloc. cbn. intros [= <- <-] Hu. cbn.
      by apply all_unmarked_insert.
Qed.

Lemma alloc_all_keeps_all_unmarked v f sizes : forall h addrs h',
  alloc_all v f sizes h = Some (addrs, h') ->
  all_unmarked (objs h) -> all_unmarked (objs h').
Proof.
  induction sizes as [|sz sizes IH]; intros h addrs h'; cbn [alloc_all].
  - by intros [= <- <-].
  - destruct (alloc_of v f sz h) as [a h1|] eqn:Ea; [|discriminate].
    destruct (alloc_all v f sizes h1) as [[addrs1 h2]|] eqn:Er; [|discriminate].
    intros [= <- <-] Hu. eapply IH; [exact Er|].
    eapply alloc_keeps_all_unmarked; [exact Ea|exact Hu].
Qed.

(** X15: In lib/heap.cpp nothing ever sets a mark bit, so a [collect()] that
    follows any sequence of allocations on a fresh heap discards every chunk:
    [m_allocated_chunks] and [m_freed_chunks] are empty afterwards. *)
Theorem lib_collect_after_allocs_discards_everything f sizes base top addrs h :
  0 <= frame0 f ->
  alloc_all VLib f sizes (fresh_heap base top) = Some (addrs, h) ->
  m_allocated_chunks (Lib.collect (frame0 f) h) = [] /\
  m_freed_chunks (Lib.collect (frame0 f) h) = [] /\
  m_size (Lib.collect (frame0 f) h) = m_size h.
Proof.
  intros Hf Hall.
  assert (Hu : all_unmarked (objs h)).
  { eapply alloc_all_keeps_all_unmarked; [exact Hall|].
    intros q c. cbn. by rewrite lookup_empty. }
  destruct (collect_of_fields VLib f h) as (Hm & Hfr & _).
  cbn [collect_of] in Hm, Hfr.
  split; [|split; [exact Hfr|exact Hm]].
  rewrite lib_collect_keeps_only_marked by exact Hf.
  induction (m_allocated_chunks h) as [|p l IH]; [reflexivity|].
  cbn [List.filter].
  replace (marked (deref (objs h) p)) with false; [exact IH|].
  unfold deref. destruct (objs h !! p) as [c|] eqn:E; [|reflexivity].
  symmetry. exact (Hu p c E).
Qed.

Lemma lib_collect_after_allocs_discards_everything_witness :
  m_allocated_chunks
    (Lib.collect 1000
       (final_heap (alloc_of VLib (mkFrames 1000 2000) 8 (fresh_heap 4096 2000))))
  = [].
Proof.
  apply (lib_collect_after_allocs_discards_everything (mkFrames 1000 2000) [8]
           4096 2000 [4096]
           (final_heap (alloc_of VLib (mkFrames 1000 2000) 8 (fresh_heap 4096 2000)))).
  - simpl. lia.
  - vm_compute. reflexivity.
Defined.

(** ** [compact] and [collect()] of heap.cpp: what they keep *)

Lemma set_start_same_sizes p a o : same_sizes_and_marks o (set_start p a o).
Proof.
  intros q. unfold set_start, deref.
  destruct (decide (p = q)) as [<-|Hne].
  - rewrite lookup_alter_eq. destruct (o !! p) as [c|]; simpl.
    + split; [split; eauto|]. auto.
    + split; [tauto|]. auto.
  - rewrite lookup_alter_ne by done. auto.
Qed.

Lemma compact_loop_frame l : forall a o,
  same_sizes_and_marks o (Old.compact_loop l a o) /\
  (forall q, ~ In q l -> Old.compact_loop l a o !! q = o !! q).
Proof.
  induction l as [|space l IH]; intros a o; cbn [Old.compact_loop].
  - split; [intros q; auto|auto].
  - destruct (negb (start (deref o space) =? a)).
    + destruct (IH (a + size (deref o space)) (set_start space a o)) as [Hs Ho].
      split.
      * intros q. destruct (Hs q) as (A & B & C).
        destruct (set_start_same_sizes space a o q) as (A' & B' & C').
        split; [tauto|]. split; congruence.
      * intros q Hq. rewrite Ho by (intros H; apply Hq; by right).
        unfold set_start. apply lookup_alter_ne. intros ->. apply Hq. by left.
    + destruct (IH (a + size (deref o space)) o) as [Hs Ho].
      split; [exact Hs|]. intros q Hq. apply Ho. intros H. apply Hq. by right.
Qed.

(** X16: [compact] rewrites start addresses only, and only of allocated chunks:
    for every heap, sizes and mark bits stay, no descriptor appears or
    disappears, descriptors outside [m_allocated_chunks] are not changed, the
    allocated vector is reordered but keeps its elements, and [m_size],
    [m_heap] and [m_freed_chunks] are left alone. *)
Theorem compact_changes_only_starts_of_allocated h q :
  (is_Some (objs (Old.compact h) !! q) <-> is_Some (objs h !! q)) /\
  size (deref (objs (Old.compact h)) q) = size (deref (objs h) q) /\
  marked (deref (objs (Old.compact h)) q) = marked (deref (objs h) q) /\
  (~ In q (m_allocated_chunks h) -> objs (Old.compact h) !! q = objs h !! q) /\
  Permutation (m_allocated_chunks h) (m_allocated_chunks (Old.compact h)) /\
  m_size (Old.compact h) = m_size h /\ m_heap (Old.compact h) = m_heap h /\
  m_freed_chunks (Old.compact h) = m_freed_chunks h.
Proof.
  unfold Old.compact. cbn [with_objs with_lists objs m_allocated_chunks m_heap
    m_size m_freed_chunks].
  destruct (compact_loop_frame (Old.sort_chunks (objs h) (m_allocated_chunks h))
              (m_heap h) (objs h)) as [Hs Ho].
  destruct (Hs q) as (A & B & C).
  pose proof (sort_chunks_perm (objs h) (m_allocated_chunks h)) as Hp.
  repeat split; try tauto; try assumption.
  intros Hq. apply Ho. intros Hin. apply Hq.
  eapply Permutation_in; [symmetry; exact Hp|exact Hin].
Qed.

(** X17: [collect()] of heap.cpp reclaims nothing: every chunk stays in
    [m_allocated_chunks], [m_size] is unchanged, and the descriptors that
    were not listed in [m_freed_chunks] stay, with their sizes. *)
Theorem old_collect_reclaims_nothing frame frame10 h q :
  Permutation (m_allocated_chunks h)
              (m_allocated_chunks (Old.collect frame frame10 h)) /\
  m_size (Old.collect frame frame10 h) = m_size h /\
  (~ In q (m_freed_chunks h) ->
   (is_Some (objs (Old.collect frame frame10 h) !! q) <-> is_Some (objs h !! q)) /\
   size (deref (objs (Old.collect frame frame10 h)) q) = size (deref (objs h) q)).
Proof.
  unfold Old.collect, Old.stack_bounds.
  set (h1 := with_objs (count_collect h) _).
  destruct (release_fields (Old.compact h1)) as (-> & _ & _ & -> & _).
  destruct (compact_loop_frame (Old.sort_chunks (objs h1) (m_allocated_chunks h1))
              (m_heap h1) (objs h1)) as [Hs _].
  assert (A : is_Some (objs (Old.compact h1) !! q) <-> is_Some (objs h1 !! q))
    by exact (proj1 (Hs q)).
  assert (B : size (deref (objs (Old.compact h1)) q) = size (deref (objs h1) q))
    by exact (proj1 (proj2 (Hs q))).
  assert (Hp : Permutation (m_allocated_chunks h) (m_allocated_chunks (Old.compact h1)))
    by apply (sort_chunks_perm (objs h1) (m_allocated_chunks h)).
  assert (Hm : m_size (Old.compact h1) = m_size h) by reflexivity.
  assert (Hfr : m_freed_chunks (Old.compact h1) = m_freed_chunks h) by reflexivity.
  destruct (mark_same_extents Old.stride frame frame10
              (m_allocated_chunks (count_collect h)) (objs (count_collect h)) q)
    as (A' & _ & B').
  split; [exact Hp|]. split; [exact Hm|].
  intros Hq.
  assert (Hsame : objs (release (Old.compact h1)) !! q = objs (Old.compact h1) !! q).
  { unfold release. cbn [with_lists with_objs objs].
    apply release_loop_other. rewrite <- in_rev. rewrite Hfr. exact Hq. }
  rewrite (deref_ext _ _ _ Hsame), Hsame. split.
  - rewrite A. exact A'.
  - rewrite B. exact B'.
Qed.

Lemma old_collect_reclaims_nothing_witness :
  is_Some (objs (Old.collect 1000 2000 heap_with_gap) !! 0%nat)
  <-> is_Some (objs heap_with_gap !! 0%nat).
Proof.
  apply (old_collect_reclaims_nothing 1000 2000 heap_with_gap 0%nat).
  vm_compute. intros [H|[]]. discriminate.
Defined.

Lemma sort_chunks_sorted_id o l :
  sorted_by_start o l -> Old.sort_chunks o l = l.
Proof.
  unfold sorted_by_start. induction 1 as [|p l Hs IH Hall]; [reflexivity|].
  cbn [Old.sort_chunks]. rewrite IH. destruct l as [|c l]; [reflexivity|].
  cbn [Old.insert_chunk]. apply Forall_cons in Hall as [Hc _].
  unfold Old.compareChunks.
  replace (start (deref o c) <? start (deref o p)) with false
    by (symmetry; apply Z.ltb_ge; lia).
  reflexivity.
Qed.

Lemma compact_loop_tiled_id l : forall a e o,
  tiles o a l e -> Old.compact_loop l a o = o.
Proof.
  induction l as [|p l IH]; intros a e o; cbn [tiles Old.compact_loop];
    [reflexivity|].
  intros [<- Ht]. rewrite Z.eqb_refl. cbn [negb]. eapply IH. exact Ht.
Qed.

(** On a heap whose allocated chunks already tile the arena from [m_heap] on,
    in the order of the vector, [compact] changes nothing. *)
Lemma compact_tiled_id h e :
  tiles (objs h) (m_heap h) (m_allocated_chunks h) e ->
  (forall p, In p (m_allocated_chunks h) -> 0 <= size (deref (objs h) p)) ->
  Old.compact h = h.
Proof.
  intros Ht Hsz. destruct (tiles_sorted _ _ _ _ Ht Hsz) as (Hs & _).
  unfold Old.compact. rewrite (sort_chunks_sorted_id _ _ Hs).
  cbn [with_lists objs m_heap].
  rewrite (compact_loop_tiled_id _ _ _ _ Ht). by destruct h.
Qed.

(** X18: [compact] is idempotent: compacting a compacted heap changes nothing. *)
Theorem compact_idempotent h :
  live_chunks (objs h) (m_allocated_chunks h) ->
  Old.compact (Old.compact h) = Old.compact h.
Proof.
  intros Hlive. destruct (compact_spec h Hlive) as (Hp & _ & Ht & Hsz & _).
  eapply compact_tiled_id.
  - exact Ht.
  - intros p Hin. destruct (Hsz p) as [-> _]. apply Hlive.
    eapply Permutation_in; [symmetry; exact Hp|exact Hin].
Qed.

Lemma compact_idempotent_witness :
  Old.compact (Old.compact heap_with_gap) = Old.compact heap_with_gap.
Proof.
  apply (compact_idempotent heap_with_gap). split.
  - apply NoDup_singleton.
  - intros p [<-|[]]. vm_compute. split; [eauto|]. split; [discriminate|reflexivity].
Defined.

Lemma compact_changes_only_starts_of_allocated_witness :
  objs (Old.compact heap_with_gap) !! 1%nat = objs heap_with_gap !! 1%nat.
Proof.
  apply (compact_changes_only_starts_of_allocated heap_with_gap 1%nat).
  vm_compute. intros [H|[]]. discriminate.
Defined.

(** ** heap.cpp: the heaps built by allocation *)

Lemma tiles_app o p : forall l a e,
  tiles o a l e -> start (deref o p) = e ->
  tiles o a (l ++ [p]) (e + size (deref o p)).
Proof.
  induction l as [|q l IH]; intros a e; cbn [tiles app].
  - intros <- Hs. split; [exact Hs|reflexivity].
  - intros [Hq Ht] Hs. split; [exact Hq|]. by apply IH.
Qed.

(** One call of [alloc] of heap.cpp on such a heap, for a request that is
    not larger than the arena. *)
Lemma old_alloc_step f sz h a h' :
  bump_tiled h -> sz <= HEAP_SIZE ->
  alloc_of VOld f sz h = Returned a h' ->
  0 < sz /\ a = m_heap h + m_size h /\ m_heap h' = m_heap h /\
  m_size h' = m_size h + sz /\
  m_allocated_chunks h' = m_allocated_chunks h ++ [next_obj h] /\
  objs h' = <[next_obj h := mkChunk false a sz]> (objs h) /\
  next_obj h' = S (next_obj h) /\ bump_tiled h'.
Proof.
  intros (Hfr & Hm & Ht & Hlt) Hle. rewrite alloc_of_unfold. unfold alloc_with.
  destruct (0 <? sz) eqn:Epos; cbn [negb]; [|discriminate].
  apply Z.ltb_lt in Epos.
  assert (Hw : wrap (m_size h + sz) = m_size h + sz).
  { unfold wrap. apply Z.mod_small. unfold HEAP_SIZE in *.
    change (2 ^ 64) with 18446744073709551616. lia. }
  rewrite Hw.
  destruct (HEAP_SIZE <? m_size h + sz) eqn:Ecap.
  - destruct (collect_of_fields VOld f h) as (-> & _ & _). rewrite Hw.
    apply Z.ltb_lt in Ecap.
    replace (m_size h + sz <=? HEAP_SIZE) with false
      by (symmetry; apply Z.leb_gt; lia).
    discriminate.
  - apply Z.ltb_ge in Ecap. unfold alloc_tail. rewrite Hfr. cbn [reuse_loop].
    unfold bump_alloc, ptr_add. cbn [stride_of]. unfold Old.stride. cbn.
    rewrite Hw. intros [= <- <-]. cbn.
    replace (m_heap h + 1 * m_size h) with (m_heap h + m_size h) by lia.
    unfold new_chunk.
    do 7 (split; [reflexivity || lia|]).
    unfold bump_tiled.
    cbn [m_freed_chunks m_size m_heap m_allocated_chunks objs next_obj].
    assert (Hold : forall p, In p (m_allocated_chunks h) ->
              deref (<[next_obj h := mkChunk false (m_heap h + m_size h) sz]> (objs h)) p
              = deref (objs h) p).
    { intros p Hp. apply deref_insert_ne. destruct (Hlt p Hp). lia. }
    split; [exact Hfr|]. split; [lia|]. split.
    + replace (m_heap h + (m_size h + sz))
        with (m_heap h + m_size h
              + size (deref (<[next_obj h := mkChunk false (m_heap h + m_size h) sz]>
                               (objs h)) (next_obj h)))
        by (rewrite deref_insert_eq; cbn; lia).
      apply tiles_app.
      * eapply tiles_ext; [exact Hold|exact Ht].
      * by rewrite deref_insert_eq.
    + intros p Hp. apply in_app_or in Hp as [Hp|[<-|[]]].
      * rewrite (Hold p Hp). destruct (Hlt p Hp). split; lia.
      * rewrite deref_insert_eq. cbn. split; lia.
Qed.

Lemma old_alloc_all_tiled f sizes : forall h addrs h',
  bump_tiled h -> Forall (fun sz => sz <= HEAP_SIZE) sizes ->
  alloc_all VOld f sizes h = Some (addrs, h') ->
  bump_tiled h' /\ m_heap h' = m_heap h /\ (next_obj h <= next_obj h')%nat /\
  (forall p, (p < next_obj h)%nat -> objs h' !! p = objs h !! p) /\
  exists ps,
    m_allocated_chunks h' = m_allocated_chunks h ++ ps /\
    map (fun p => start (deref (objs h') p)) ps = addrs /\
    map (fun p => size (deref (objs h') p)) ps = sizes.
Proof.
  induction sizes as [|sz sizes IH]; intros h addrs h' Hinv Hle; cbn [alloc_all].
  - intros [= <- <-]. split; [exact Hinv|]. split; [reflexivity|].
    split; [lia|]. split; [auto|]. exists []. by rewrite app_nil_r.
  - apply Forall_cons in Hle as [Hsz Hle].
    destruct (alloc_of VOld f sz h) as [a h1|] eqn:Ea; [|discriminate].
    destruct (alloc_all VOld f sizes h1) as [[addrs1 h2]|] eqn:Er; [|discriminate].
    intros [= <- <-].
    destruct (old_alloc_step f sz h a h1 Hinv Hsz Ea)
      as (_ & Ha & Hb & _ & Hal & Ho & Hn & Hinv1).
    destruct (IH h1 addrs1 h2 Hinv1 Hle Er)
      as (Hinv2 & Hb2 & Hn2 & Hkeep & ps & Hal2 & Hst & Hsi).
    split; [exact Hinv2|]. split; [congruence|]. split; [lia|]. split.
    + intros p Hp. rewrite Hkeep by lia. rewrite Ho.
      apply lookup_insert_ne. lia.
    + exists (next_obj h :: ps). rewrite Hal2, Hal, <- app_assoc.
      split; [reflexivity|].
      assert (Hd : deref (objs h2) (next_obj h) = mkChunk false a sz).
      { unfold deref. rewrite Hkeep by lia. rewrite Ho.
        by rewrite lookup_insert_eq. }
      cbn [map]. rewrite Hd, Hst, Hsi. split; reflexivity.
Qed.

(** X19: In heap.cpp, after any sequence of allocations on a fresh heap (requests
    not larger than the arena): nothing is in [m_freed_chunks]; the allocated
    descriptors are, in order, the regions handed out (same addresses, same
    sizes); they tile [m_heap, m_heap + m_size) with no gap; and [compact]
    then changes nothing. *)
Theorem old_allocs_tile_the_arena f sizes base top addrs h :
  Forall (fun sz => sz <= HEAP_SIZE) sizes ->
  alloc_all VOld f sizes (fresh_heap base top) = Some (addrs, h) ->
  m_freed_chunks h = [] /\
  map (fun p => start (deref (objs h) p)) (m_allocated_chunks h) = addrs /\
  map (fun p => size (deref (objs h) p)) (m_allocated_chunks h) = sizes /\
  tiles (objs h) base (m_allocated_chunks h) (base + m_size h) /\
  Old.compact h = h.
Proof.
  intros Hle Hall.
  assert (Hinv0 : bump_tiled (fresh_heap base top)).
  { unfold bump_tiled, fresh_heap, HEAP_SIZE. cbn.
    split; [reflexivity|]. split; [lia|]. split; [lia|]. intros p []. }
  destruct (old_alloc_all_tiled f sizes _ _ _ Hinv0 Hle Hall)
    as ((Hfr & Hm & Ht & Hlt) & Hb & _ & _ & ps & Hal & Hst & Hsi).
  cbn in Hal, Hb. subst ps. rewrite Hb in Ht.
  split; [exact Hfr|]. split; [exact Hst|]. split; [exact Hsi|].
  split; [exact Ht|].
  eapply compact_tiled_id.
  - rewrite Hb. exact Ht.
  - intros p Hp. destruct (Hlt p Hp). lia.
Qed.

Lemma old_allocs_tile_the_arena_witness :
  Old.compact
    (final_heap (alloc_of VOld (mkFrames 1000 2000) 8 (fresh_heap 4096 2000)))
  = final_heap (alloc_of VOld (mkFrames 1000 2000) 8 (fresh_heap 4096 2000)).
Proof.
  apply (old_allocs_tile_the_arena (mkFrames 1000 2000) [8] 4096 2000 [4096]
           (final_heap (alloc_of VOld (mkFrames 1000 2000) 8 (fresh_heap 4096 2000)))).
  - repeat constructor. vm_compute. discriminate.
  - vm_compute. reflexivity.
Defined.

Lemma old_alloc_all_disjoint_in_arena_witness :
  alloc_all_ok VOld (mkFrames 1000 2000) [120120120; 1] (fresh_heap 4096 2000).
Proof.
  apply (old_alloc_all_disjoint_in_arena (mkFrames 1000 2000) [120120120; 1]
           4096 2000).
  - repeat constructor.
  - vm_compute. discriminate.
Defined.

(** ** lib/heap.cpp: a swept chunk is handed out again *)

Lemma filter_all_false (g : nat -> bool) l :
  Forall (fun q => g q = false) l -> List.filter g l = [].
Proof.
  induction 1 as [|q l Hq _ IH]; simpl; [reflexivity|]. by rewrite Hq.
Qed.

(** X21: After [collect(SWEEP)], which sweeps without releasing, an [alloc] of the
    size of the first unmarked chunk returns the address of that chunk and
    puts its descriptor, unchanged, back at the end of [m_allocated_chunks]. *)
Theorem swept_chunk_is_reused_at_same_address frame f sz h pre p post :
  0 < sz -> wrap (m_size h + sz) <= HEAP_SIZE ->
  m_freed_chunks h = [] ->
  m_allocated_chunks h = pre ++ p :: post ->
  Forall (fun q => marked (deref (objs h) q) = true) pre ->
  marked (deref (objs h) p) = false -> size (deref (objs h) p) = sz ->
  exists h',
    alloc_of VLib f sz (Lib.collect_flags frame Lib.SWEEP h)
      = Returned (start (deref (objs h) p)) h' /\
    m_allocated_chunks h'
      = pre ++ List.filter (fun q => marked (deref (objs h) q)) post ++ [p] /\
    m_freed_chunks h'
      = List.filter (fun q => negb (marked (deref (objs h) q))) post /\
    objs h' = objs h /\ m_size h' = m_size h.
Proof.
  intros Hpos Hcap Hfr Hal Hmarked Hp Hsz.
  assert (Hsweep : Lib.collect_flags frame Lib.SWEEP h = Lib.sweep h)
    by reflexivity.
  rewrite Hsweep.
  assert (Hpre1 : List.filter (fun q => marked (deref (objs h) q)) pre = pre).
  { clear -Hmarked. induction Hmarked as [|q l Hq _ IH]; simpl; [reflexivity|].
    by rewrite Hq, IH. }
  assert (Hpre2 : List.filter (fun q => negb (marked (deref (objs h) q))) pre = []).
  { apply filter_all_false. eapply Forall_impl; [exact Hmarked|].
    simpl. by intros q ->. }
  assert (Hs : Lib.sweep h
               = with_lists h
                   (pre ++ List.filter (fun q => marked (deref (objs h) q)) post)
                   (p :: List.filter (fun q => negb (marked (deref (objs h) q))) post)).
  { unfold Lib.sweep. rewrite sweep_loop_spec, Hfr, Hal.
    rewrite !List.filter_app, Hpre1, Hpre2. cbn [List.filter app]. rewrite Hp.
    reflexivity. }
  rewrite Hs.
  set (hs := with_lists h _ _).
  assert (Hr : reuse_loop Lib.stride sz hs (m_freed_chunks hs) 0
               = Some (start (deref (objs hs) p),
                       with_lists hs (m_allocated_chunks hs ++ [p])
                         (List.filter (fun q => negb (marked (deref (objs h) q))) post))).
  { apply (reuse_loop_exact Lib.stride sz hs p
             (List.filter (fun q => negb (marked (deref (objs h) q))) post) [] []);
      [reflexivity|constructor|exact Hsz]. }
  rewrite alloc_within_capacity by assumption. unfold alloc_tail.
  cbn [stride_of]. rewrite Hr.
  eexists. split; [reflexivity|]. cbn. rewrite <- app_assoc. auto.
Qed.

Lemma swept_chunk_is_reused_at_same_address_witness :
  exists h',
    alloc_of VLib (mkFrames 1000 2000) 8
             (Lib.collect_flags 1000 Lib.SWEEP heap_with_root)
      = Returned 4096 h' /\
    m_allocated_chunks h' = [0%nat].
Proof.
  destruct (swept_chunk_is_reused_at_same_address 1000 (mkFrames 1000 2000) 8
              heap_with_root [] 0%nat [])
    as (h' & Hr & Hal & _).
  - lia.
  - vm_compute. discriminate.
  - reflexivity.
  - reflexivity.
  - constructor.
  - reflexivity.
  - reflexivity.
  - exists h'. split; [exact Hr|exact Hal].
Defined.

(** ** [alloc]: the split of a larger freed chunk, in general *)

(** X22: When the first freed chunk that is not smaller than the request is
    larger, [alloc] returns its start and moves its descriptor, with its size
    unchanged, to the end of [m_allocated_chunks]; it appends to
    [m_freed_chunks] one new descriptor of size [c.size - size] that starts
    [c.size] elements after [c.start]. The bump offset does not move. *)
Theorem alloc_splits_first_larger_chunk v f sz h pre cp post :
  0 < sz -> wrap (m_size h + sz) <= HEAP_SIZE ->
  m_freed_chunks h = pre ++ cp :: post ->
  Forall (fun q => size (deref (objs h) q) < sz) pre ->
  sz < size (deref (objs h) cp) ->
  exists h',
    alloc_of v f sz h = Returned (start (deref (objs h) cp)) h' /\
    m_allocated_chunks h' = m_allocated_chunks h ++ [cp] /\
    m_freed_chunks h' = pre ++ post ++ [next_obj h] /\
    objs h' = <[next_obj h :=
                  mkChunk false
                    (start (deref (objs h) cp)
                     + stride_of v * size (deref (objs h) cp))
                    (wrap (size (deref (objs h) cp) - sz))]> (objs h) /\
    m_size h' = m_size h.
Proof.
  intros Hpos Hcap Hfr Hsmall Hbig.
  destruct (reuse_loop_split (stride_of v) sz h cp post [] pre Hfr Hsmall Hbig)
    as (h' & Hr & Hrest).
  cbn [length app] in Hr, Hrest. rewrite <- Hfr in Hr.
  rewrite alloc_within_capacity by assumption. unfold alloc_tail. rewrite Hr.
  exists h'. split; [reflexivity|exact Hrest].
Qed.

Lemma alloc_splits_first_larger_chunk_witness :
  exists h',
    alloc_of VOld (mkFrames 1000 2000) 32 heap_with_two_freed
      = Returned 4112 h' /\
    m_allocated_chunks h' = [1%nat] /\
    m_freed_chunks h' = [0%nat; 2%nat] /\
    objs h' = <[2%nat := mkChunk false (4112 + Old.stride * 64) (wrap (64 - 32))]>
                (objs heap_with_two_freed).
Proof.
  destruct (alloc_splits_first_larger_chunk VOld (mkFrames 1000 2000) 32
              heap_with_two_freed [0%nat] 1%nat [])
    as (h' & Hr & Hal & Hfr & Ho & _).
  - lia.
  - vm_compute. discriminate.
  - reflexivity.
  - repeat constructor.
  - vm_compute. reflexivity.
  - exists h'. split; [exact Hr|]. split; [exact Hal|]. split; [exact Hfr|exact Ho].
Defined.

(** ** Compaction on the heaps heap.cpp builds *)









